(** * morpho-syntax (hw1): a Greek lexicon derived from a tagged corpus

    A shallow embedding of [src/hw1/file.py], [src/hw1/inflections.py] and
    [src/hw1/greek.py], and the properties of the corpus normaliser, the
    inflection aggregator and the stem and class inferencer.

    Python [str] values are sequences of Unicode code points, so a string is
    a list of code points here ([len] counts code points, not bytes). *)

From Stdlib Require Import String Ascii List NArith Arith Lia Bool.
From Stdlib Require Import Sorted Permutation.
Import ListNotations.

Set Implicit Arguments.

(** ** Python strings, lists and exceptions *)

Module Py.

Definition char := N.
Definition str := list char.

(** *** Literals: the UTF-8 bytes of a Rocq string, read as code points *)

Fixpoint utf8 (bs : list N) : str :=
  match bs with
  | [] => []
  | b0 :: r0 =>
    if (b0 <? 128)%N then b0 :: utf8 r0
    else match r0 with
    | [] => []
    | b1 :: r1 =>
      if (b0 <? 224)%N then ((b0 mod 32) * 64 + b1 mod 64)%N :: utf8 r1
      else match r1 with
      | [] => []
      | b2 :: r2 =>
        if (b0 <? 240)%N
        then ((b0 mod 16) * 4096 + (b1 mod 64) * 64 + b2 mod 64)%N :: utf8 r2
        else match r2 with
        | [] => []
        | b3 :: r3 =>
          ((b0 mod 8) * 262144 + (b1 mod 64) * 4096
           + (b2 mod 64) * 64 + b3 mod 64)%N :: utf8 r3
        end
      end
    end
  end.

Fixpoint bytes_of (s : string) : list N :=
  match s with
  | EmptyString => []
  | String a r => N_of_ascii a :: bytes_of r
  end.

Definition u (s : string) : str := utf8 (bytes_of s).

Definition TAB : char := 9%N.
Definition NL : char := 10%N.
Definition PIPE : char := 124%N.
Definition PLUS : char := 43%N.
Definition HASH : char := 35%N.

(** *** Equality and membership *)

Fixpoint str_eqb (a b : str) : bool :=
  match a, b with
  | [], [] => true
  | x :: a', y :: b' => (x =? y)%N && str_eqb a' b'
  | _, _ => false
  end.

(** [x in xs] for a list of strings. *)
Definition in_list (x : str) (xs : list str) : bool := existsb (str_eqb x) xs.

(** [c in s] for a one-character [c]. *)
Definition contains_char (c : char) (s : str) : bool := existsb (N.eqb c) s.

(** *** startswith / endswith *)

Fixpoint startswith (s p : str) : bool :=
  match p, s with
  | [], _ => true
  | x :: p', y :: s' => (x =? y)%N && startswith s' p'
  | _ :: _, [] => false
  end.

Definition endswith (s e : str) : bool := startswith (rev s) (rev e).

(** *** split, join, strip *)

(** [s.split(sep)] for a one-character separator: always at least one field. *)
Fixpoint split (sep : char) (s : str) : list str :=
  match s with
  | [] => [[]]
  | c :: r =>
    if (c =? sep)%N then [] :: split sep r
    else match split sep r with
         | [] => [[c]]
         | f :: fs => (c :: f) :: fs
         end
  end.

(** [s.split(sep, maxsplit)]: at most [maxsplit] cuts, the rest is the last
    field. *)
Fixpoint split_max (sep : char) (maxsplit : nat) (s : str) : list str :=
  match maxsplit with
  | O => [s]
  | S m =>
    match s with
    | [] => [[]]
    | c :: r =>
      if (c =? sep)%N then [] :: split_max sep m r
      else match split_max sep maxsplit r with
           | [] => [[c]]
           | f :: fs => (c :: f) :: fs
           end
    end
  end.

(** [sep.join(xs)]. *)
Fixpoint join (sep : str) (xs : list str) : str :=
  match xs with
  | [] => []
  | [x] => x
  | x :: r => x ++ sep ++ join sep r
  end.

(** The code points [str.isspace] accepts, which [str.strip()] removes. *)
Definition is_space (c : char) : bool :=
  ((9 <=? c) && (c <=? 13) || (28 <=? c) && (c <=? 32)
   || (c =? 133) || (c =? 160) || (c =? 5760)
   || (8192 <=? c) && (c <=? 8202)
   || (c =? 8232) || (c =? 8233) || (c =? 8239) || (c =? 8287)
   || (c =? 12288))%N.

Fixpoint lstrip (s : str) : str :=
  match s with
  | [] => []
  | c :: r => if is_space c then lstrip r else s
  end.

Definition strip (s : str) : str := rev (lstrip (rev (lstrip s))).

(** [xs[1:-1]] *)
Definition slice_1_m1 (A : Type) (xs : list A) : list A := removelast (tl xs).

(** *** Exceptions *)

Inductive exn := IndexError | KeyError | ValueError.

Inductive result (A : Type) :=
| Ok (a : A)
| Raise (e : exn).
Arguments Ok {A} a.
Arguments Raise {A} e.

Definition bind (A B : Type) (m : result A) (k : A -> result B) : result B :=
  match m with
  | Ok a => k a
  | Raise e => Raise e
  end.

(** [xs[i]] for [0 <= i]. *)
Definition index (A : Type) (xs : list A) (i : nat) : result A :=
  match nth_error xs i with
  | Some x => Ok x
  | None => Raise IndexError
  end.

(** *** dict: insertion-ordered, one binding per key *)

Definition dict (V : Type) := list (str * V).

Fixpoint dict_get (V : Type) (k : str) (d : dict V) : option V :=
  match d with
  | [] => None
  | (k', v) :: r => if str_eqb k k' then Some v else dict_get k r
  end.

(** [d[k] = v]: an existing key keeps its place, a new one goes last. *)
Fixpoint dict_set (V : Type) (k : str) (v : V) (d : dict V) : dict V :=
  match d with
  | [] => [(k, v)]
  | (k', v') :: r =>
    if str_eqb k k' then (k, v) :: r else (k', v') :: dict_set k v r
  end.

Definition dict_mem (V : Type) (k : str) (d : dict V) : bool :=
  match dict_get k d with
  | Some _ => true
  | None => false
  end.

Definition dict_keys (V : Type) (d : dict V) : list str := map fst d.

(** *** Ordering of strings, min, max, sort *)

(** [a < b]: lexicographic on code points. *)
Fixpoint str_ltb (a b : str) : bool :=
  match a, b with
  | _, [] => false
  | [], _ :: _ => true
  | x :: a', y :: b' => (x <? y)%N || ((x =? y)%N && str_ltb a' b')
  end.

(** [min(m)] and [max(m)] for [m = best :: rest]. *)
Fixpoint min_str (best : str) (rest : list str) : str :=
  match rest with
  | [] => best
  | x :: r => min_str (if str_ltb x best then x else best) r
  end.

Fixpoint max_str (best : str) (rest : list str) : str :=
  match rest with
  | [] => best
  | x :: r => max_str (if str_ltb best x then x else best) r
  end.

Fixpoint insert_sorted (x : str) (xs : list str) : list str :=
  match xs with
  | [] => [x]
  | y :: r => if str_ltb x y then x :: xs else y :: insert_sorted x r
  end.

(** [xs.sort()] *)
Definition sort (xs : list str) : list str := fold_right insert_sorted [] xs.

(** *** os.path.commonprefix

<<
    s1 = min(m); s2 = max(m)
    for i, c in enumerate(s1):
        if c != s2[i]:
            return s1[:i]
    return s1
>> *)
Fixpoint common_loop (s1 s2 : str) : result str :=
  match s1 with
  | [] => Ok []
  | c :: r1 =>
    match s2 with
    | [] => Raise IndexError
    | d :: r2 =>
      if (c =? d)%N
      then match common_loop r1 r2 with
           | Ok p => Ok (c :: p)
           | Raise e => Raise e
           end
      else Ok []
    end
  end.

Definition commonprefix (m : list str) : result str :=
  match m with
  | [] => Ok []
  | x :: r => common_loop (min_str x r) (max_str x r)
  end.

(** [re.sub(suffix + "$", "", s)] for a [suffix] of letters: [$] matches at
    the end of [s] and before a final newline, so at most one occurrence is
    removed. *)
Definition re_sub_end (suffix s : str) : str :=
  if endswith s suffix then firstn (length s - length suffix) s
  else if endswith s (suffix ++ [NL])
  then firstn (length s - length suffix - 1) s ++ [NL]
  else s.

End Py.

Import Py.

Declare Scope py_scope.
Delimit Scope py_scope with py.
Notation "x <- m ;; k" := (bind m (fun x => k))
  (at level 61, m at next level, right associativity) : py_scope.
Notation "' pat <- m ;; k" := (bind m (fun x => match x with pat => k end))
  (at level 61, pat pattern, m at next level, right associativity) : py_scope.
Open Scope string_scope.
Open Scope list_scope.
Open Scope nat_scope.
Open Scope py_scope.

(** ** What the code takes from Python's Unicode database

    [str.lower], NFD normalisation with the category test of [remove_tonos],
    and the class [\d] of [re] are functions of the Unicode character
    database.  The definitions below take them as parameters; the instances
    here cover the lowercase monotonic Greek alphabet and ASCII and supply
    concrete inputs. *)

Definition ascii_lower_char (c : char) : char :=
  if ((65 <=? c) && (c <=? 90))%N then (c + 32)%N else c.

(** [str.lower] on ASCII text. *)
Definition ascii_lower (s : str) : str := map ascii_lower_char s.

Definition is_ascii (s : str) : bool := forallb (fun c => (c <? 128)%N) s.

(** The decimal digits of ASCII. *)
Definition ascii_decimal (c : char) : bool := ((48 <=? c) && (c <=? 57))%N.

(** NFD followed by the removal of combining marks, on one lowercase Greek
    letter: the accented vowels decompose into the vowel and marks of
    U+0300..U+036F (category Mn). *)
Definition tonos_base (c : char) : list char :=
  (if (c =? 940) then [945]            (* ά *)
   else if (c =? 941) then [949]       (* έ *)
   else if (c =? 942) then [951]       (* ή *)
   else if (c =? 943) then [953]       (* ί *)
   else if (c =? 972) then [959]       (* ό *)
   else if (c =? 973) then [965]       (* ύ *)
   else if (c =? 974) then [969]       (* ώ *)
   else if (c =? 970) || (c =? 912) then [953]  (* ϊ ΐ *)
   else if (c =? 971) || (c =? 944) then [965]  (* ϋ ΰ *)
   else if (768 <=? c) && (c <=? 879) then []
   else [c])%N.

Definition remove_tonos_el (word : str) : str :=
  ascii_lower (flat_map tonos_base word).

(** ** file.py *)

Definition TO_IGNORE : list str :=
  map u ["PUNCT"; "Foreign=Yes"; "SYM"; "Abbr=Yes"; "X"].

Section Normalizer.

Variable lower : str -> str.
Variable isdecimal : char -> bool.

(** One turn of the loop of [from_conllu]: the line appended to [txt], if
    any. *)
Definition conllu_line (line : str) : option str :=
  if startswith line [HASH] then None
  else
    match split_max TAB 1 line with
    | _ :: p1 :: _ =>
      let annotations := split TAB p1 in
      if existsb (fun n => in_list n TO_IGNORE) annotations
         || existsb isdecimal (hd [] annotations)
      then None
      else
        let to_add := split_max TAB 5 p1 in
        let word := lower (hd [] to_add) ++ [TAB] in
        Some (word ++ join [TAB] (slice_1_m1 to_add) ++ [NL])
    | _ => None
    end.

(** The lines written by [from_conllu]. *)
Fixpoint from_conllu (lines : list str) : list str :=
  match lines with
  | [] => []
  | line :: r =>
    match conllu_line line with
    | Some out => out :: from_conllu r
    | None => from_conllu r
    end
  end.

End Normalizer.

(** ** inflections.py *)

Definition INFLECTED : list str :=
  map u ["ADJ"; "DET"; "NOUN"; "NUM"; "PRON"; "VERB"; "PROPN"; "ADV"; "AUX"].

Definition NOT_INFLECTED : list str := map u ["CCONJ"; "PART"; "SCONJ"; "ADP"].

(** The three shapes of a value of the [inflections] dictionary:
    [{'pos', 'annotations'}], [{'pos', 'inflections'}] and [{'pos'}]. *)
Inductive entry :=
| Contraction (pos : str) (annotations : list str)
| Inflected (pos : str) (inflections : dict (list str))
| Bare (pos : str).

Definition table := dict entry.

Definition entry_pos (e : entry) : str :=
  match e with
  | Contraction pos _ | Inflected pos _ | Bare pos => pos
  end.

(** Whether the entry has the key ['inflections']. *)
Definition has_inflections (e : entry) : bool :=
  match e with
  | Inflected _ _ => true
  | _ => false
  end.

(** [lemma in inflections], for a [lemma] that is [None] or a string. *)
Definition in_table (lemma : option str) (inflections : table) : bool :=
  match lemma with
  | None => false
  | Some l => dict_mem l inflections
  end.

(** [lemma] is [None] or a string; [None] is never a key. *)
Definition store_in (inflections : table) (word : str) (lemma : option str)
    (pos ann : str) : table :=
  let annotations := split PIPE ann in
  let create :=
    if contains_char PLUS pos
    then dict_set word (Contraction pos annotations) inflections
    else if in_list pos INFLECTED
    then
      let lemma := match lemma with None => word | Some l => l end in
      dict_set lemma (Inflected pos [(word, annotations)]) inflections
    else dict_set word (Bare pos) inflections in
  match lemma with
  | None => create
  | Some l =>
    match dict_get l inflections with
    | None => create
    | Some e =>
      if in_list pos INFLECTED
      then
        match e with
        | Inflected p infl =>
          dict_set l (Inflected p (dict_set word annotations infl)) inflections
        | _ =>
          (* KeyError on ['inflections'], caught *)
          dict_set l (Inflected pos [(word, annotations)]) inflections
        end
      else inflections
    end
  end.

(** The loop of [update_contraction], [n] turns left. *)
Fixpoint contraction_loop (n : nat) (lines : list str) (i : nat)
    (pos annotations : list str) : result (list str * list str) :=
  match n with
  | O => Ok (pos, annotations)
  | S n' =>
    if length lines <=? i then Ok (pos, annotations)
    else
      let i := S i in
      raw <- index lines i ;;
      let line := strip raw in
      match line with
      | [] => contraction_loop n' lines i pos annotations
      | _ :: _ =>
        let info := split TAB line in
        if length info <? 5 then contraction_loop n' lines i pos annotations
        else
          match info with
          | [_; _; next_pos; _; next_anns] =>
            contraction_loop n' lines i (pos ++ [next_pos])
              (if negb (str_eqb next_anns (u "_"))
               then annotations ++ [next_anns] else annotations)
          | _ => Raise ValueError
          end
      end
  end.

Definition update_contraction (lines : list str) (i : nat)
    : result (str * str) :=
  '(pos, annotations) <- contraction_loop 2 lines i [] [] ;;
  Ok (join [PLUS] pos, join [PIPE] annotations).

Definition update (inflections : table) (info : list str) (lines : list str)
    (i : nat) : result table :=
  match info with
  | [word; lemma; pos; _; ann] =>
    if str_eqb lemma (u "_") || str_eqb pos (u "_")
    then
      '(pos, ann) <- update_contraction lines i ;;
      Ok (store_in inflections word (Some lemma) pos ann)
    else Ok (store_in inflections word (Some lemma) pos ann)
  | _ => Raise ValueError
  end.

(** The [while] loop of [get_inflections]; [None] when [fuel] turns were not
    enough. *)
Fixpoint inflections_loop (fuel : nat) (lines : list str) (inflections : table)
    (i : nat) : option (result table) :=
  match fuel with
  | O => None
  | S fuel' =>
    if i <? length lines then
      let tabs := split TAB (strip (nth i lines [])) in
      if negb (length tabs =? 5) then
        (* continue *)
        inflections_loop fuel' lines inflections i
      else
        match update inflections tabs lines i with
        | Ok inflections' => inflections_loop fuel' lines inflections' (S i)
        | Raise e => Some (Raise e)
        end
    else Some (Ok inflections)
  end.

(** The table [get_inflections] hands to [to_json]. *)
Definition get_inflections (fuel : nat) (lines : list str)
    : option (result table) :=
  inflections_loop fuel lines [] 0.

(** ** greek.py *)

Definition LEMMA_SUFFIXES : list str :=
  map u ["αω"; "εω"; "αμαι"; "ωμαι"; "ομαι"; "ος"; "ης"; "ας"; "μα"; "ιο";
         "α"; "η"; "ο"; "ω"].

Definition VERB_CLASSES : dict (list str) :=
  [ (u "b1", map u ["άω"; "έω"]);
    (u "b2", map u ["ώ"]);
    (u "a", map u ["ω"]);
    (u "παθ", map u ["άμαι"; "ώμαι"; "ομαι"; "ται"]) ].

Definition NOUN_CLASSES : dict (list str) :=
  [ (u "masc-ος", map u ["ος"]);
    (u "masc-ας", map u ["ας"]);
    (u "masc-ης", map u ["ης"; "ής"]);
    (u "neut-μα", map u ["μα"]);
    (u "neut-ι", map u ["ι"; "ός"]);
    (u "neut-ο", map u ["ο"; "ό"]);
    (u "fem-α", map u ["α"]);
    (u "fem-η", map u ["η"; "ή"]) ].

Definition ADJ_CLASSES : dict (list str) :=
  [ (u "ός", map u ["ρός"; "νός"; "ακός"; "ικός"; "ός"]);
    (u "ος", map u ["ινος"; "ιος"; "ος"]);
    (u "ής", map u ["ής"]);
    (u "ης", map u ["ης"]);
    (u "ύς", map u ["ύς"]) ].

Definition CLASSES : dict (dict (list str)) :=
  [ (u "ADJ", ADJ_CLASSES);
    (u "VERB", VERB_CLASSES);
    (u "NOUN", NOUN_CLASSES);
    (u "PRON", NOUN_CLASSES) ].

Definition TO_STEM : list str :=
  map u ["ADJ"; "NOUN"; "VERB"; "PRON"; "PROPN"].

(** The first class, in the order of the table, one of whose endings ends
    the lemma. *)
Definition first_class (lemma : str) (classes : dict (list str))
    : option (str * list str) :=
  find (fun c => existsb (endswith lemma) (snd c)) classes.

(** [None] inside [Ok] is Python's [None]; [CLASSES[pos]] raises [KeyError]. *)
Definition get_class (lemma pos : str) : result (option str) :=
  match dict_get pos CLASSES with
  | None => Raise KeyError
  | Some classes =>
    match first_class lemma classes with
    | Some (tag, _) => Ok (Some tag)
    | None => if str_eqb pos (u "VERB") then Ok (Some (u "")) else Ok None
    end
  end.

Section Inferencer.

Variable lower : str -> str.
Variable remove_tonos : str -> str.

Definition get_stem (lemma : str) (words : list str) : result str :=
  let lemma_tonos := remove_tonos lemma in
  let words_tonos := map remove_tonos words in
  stem <- commonprefix ([lemma_tonos] ++ words_tonos) ;;
  if (length stem <? 4) || (length words <? 2)
  then
    match find (endswith lemma_tonos) LEMMA_SUFFIXES with
    | Some suffix => Ok (re_sub_end suffix lemma_tonos)
    | None => Ok stem
    end
  else Ok stem.

Definition analyze_inflections (lemma : str) (words : list str) (pos : str)
    : result (str * str) :=
  stem <- get_stem lemma words ;;
  class_tag <- get_class lemma pos ;;
  match class_tag with
  | None => Ok (lemma, lower pos)
  | Some class_tag => Ok (stem, join (u "-") [lower pos; class_tag])
  end.

(** [info.get("inflections", [])], iterated: the recorded surface forms. *)
Definition entry_words (info : entry) : list str :=
  match info with
  | Inflected _ inflections => dict_keys inflections
  | _ => []
  end.

(** [f"{lemma}\t{stem}\t{class_tag}"] *)
Definition lexicon_line (lemma stem class_tag : str) : str :=
  lemma ++ [TAB] ++ stem ++ [TAB] ++ class_tag.

(** One turn of the loop of [get_greek_lexicon]. *)
Definition lexicon_row (lemma : str) (info : entry) : result str :=
  let pos := entry_pos info in
  if negb (in_list pos TO_STEM)
  then Ok (lexicon_line lemma lemma (lower pos))
  else
    let words := entry_words info in
    '(stem, class_tag) <- analyze_inflections lemma words pos ;;
    Ok (lexicon_line lemma stem class_tag).

Fixpoint lexicon_rows (d : table) : result (list str) :=
  match d with
  | [] => Ok []
  | (lemma, info) :: r =>
    row <- lexicon_row lemma info ;;
    rows <- lexicon_rows r ;;
    Ok (row :: rows)
  end.

(** The lines [get_greek_lexicon] writes through [to_txt], sorted. *)
Definition get_greek_lexicon (d : table) : result (list str) :=
  lexicon <- lexicon_rows d ;;
  Ok (sort lexicon).

End Inferencer.

(** ** file.py: the paths written to *)

(** [s.replace(old, new)] for a non-empty [old]: the occurrences of [old]
    are replaced from left to right, without overlap; [skip] characters of
    an occurrence are still to be passed. *)
Fixpoint replace_go (old new : str) (skip : nat) (s : str) : str :=
  match s with
  | [] => []
  | c :: r =>
    match skip with
    | S k => replace_go old new k r
    | O =>
      if startswith s old
      then new ++ replace_go old new (length old - 1) r
      else c :: replace_go old new 0 r
    end
  end.

Definition replace (old new s : str) : str := replace_go old new 0 s.

(** [path = filepath.replace("tagged.txt", ext)] of [to_json]. *)
Definition to_json_path (ext filepath : str) : str :=
  replace (u "tagged.txt") ext filepath.

(** [path = filepath.replace("inflections.json", ext)] of [to_txt]. *)
Definition to_txt_path (filepath ext : str) : str :=
  replace (u "inflections.json") ext filepath.

(** ** hw2/lexc/lexc_builder.py *)

Module Lexc.

Definition noun_classes : dict str :=
  [ (u "noun-masc-ος", u "NounMascOs");
    (u "noun-masc-ας", u "NounMascAs");
    (u "noun-masc-ης", u "NounMascIs");
    (u "noun-neut-ι", u "NounNeutI");
    (u "noun-neut-μα", u "NounNeutMa");
    (u "noun-neut-ο", u "NounNeutO");
    (u "noun-fem-α", u "NounFemA");
    (u "noun-fem-η", u "NounFemI") ].

Definition adj_classes : dict str :=
  [ (u "adj-ός", u "AdjOs1");
    (u "adj-ος", u "AdjOs2");
    (u "adj-ής", u "AdjIs");
    (u "adj-ης", u "AdjIs2");
    (u "adj-ύς", u "AdjUs") ].

Definition verb_classes : dict str :=
  [ (u "verb-a", u "VerbA");
    (u "verb-παθ", u "VerbPath") ].

Definition classes : dict (dict str) :=
  [ (u "Noun", noun_classes);
    (u "Adj", adj_classes);
    (u "Verb", verb_classes) ].

(** One turn of the loop of [process_lexicon]: the entry appended, if
    any. *)
Definition lexicon_entry (pos_classes : dict str) (line : str) : option str :=
  match split TAB (strip line) with
  | [word; stem; pos] =>
    match dict_get pos pos_classes with
    | Some class => Some (word ++ u ":" ++ stem ++ u " " ++ class ++ u " ;")
    | None => None
    end
  | _ => None
  end.

Fixpoint lexicon_entries (pos_classes : dict str) (lexicon_lines : list str)
    : list str :=
  match lexicon_lines with
  | [] => []
  | line :: r =>
    match lexicon_entry pos_classes line with
    | Some e => e :: lexicon_entries pos_classes r
    | None => lexicon_entries pos_classes r
    end
  end.

(** [process_lexicon] on the lines read from [txt_file]. *)
Definition process_lexicon (lexicon_lines : list str) (pos : str)
    : result (list str) :=
  match dict_get pos classes with
  | None => Raise KeyError
  | Some pos_classes => Ok (lexicon_entries pos_classes lexicon_lines)
  end.

(** The [for ... else] of [insert]: [j = i + 1] for the first line that,
    stripped, is ["LEXICON " + pos]; [lines] starts at index [i]. *)
Fixpoint insertion_point (pos : str) (lines : list str) (i : nat)
    : option nat :=
  match lines with
  | [] => None
  | line :: r =>
    if str_eqb (strip line) (u "LEXICON " ++ pos) then Some (i + 1)
    else insertion_point pos r (S i)
  end.

Definition insert (entries : list str) (pos : str) (lines : list str)
    : result (list str) :=
  match insertion_point pos lines 0 with
  | None => Raise ValueError
  | Some j =>
    Ok (firstn j lines ++ [join [NL] entries ++ [NL]] ++ skipn j lines)
  end.

(** [expand_lexc] on the lines of the two files: the lines written back to
    [lexc_file]. *)
Definition expand_lexc (txt_lines lexc_lines : list str) (pos : str)
    : result (list str) :=
  entries <- process_lexicon txt_lines pos ;;
  insert entries pos lexc_lines.

End Lexc.

(** ** Specification-side notions *)

(** [p] is a prefix of [s]. *)
Definition prefix (p s : str) : Prop := exists r, s = p ++ r.

(** [e] is a suffix of [s]. *)
Definition suffix (e s : str) : Prop := exists r, s = r ++ e.

(** [p] is the longest common prefix of the strings of [m]. *)
Definition longest_common_prefix (p : str) (m : list str) : Prop :=
  Forall (prefix p) m /\ forall q, Forall (prefix q) m -> prefix q p.

(** [needle] occurs somewhere in [s]. *)
Definition substring (needle s : str) : Prop :=
  exists a b, s = a ++ needle ++ b.

(** A corpus line of tab-separated columns, newline-terminated. *)
Definition tsv (fields : list string) : str := join [TAB] (map u fields) ++ [NL].

(** No tab in a field. *)
Definition no_tab (f : str) : Prop := ~ In TAB f.

(** A field that [strip] leaves alone at both ends of a line: non-empty,
    with a first and a last character that are not white space. *)
Definition trimmed (f : str) : Prop :=
  match f with
  | [] => False
  | c :: _ => is_space c = false /\ is_space (last f c) = false
  end.

(** What one well-formed record adds to the table. *)
Definition store_record (inflections : table) (line : str) : table :=
  match split TAB (strip line) with
  | [word; lemma; pos; _; ann] => store_in inflections word (Some lemma) pos ann
  | _ => inflections
  end.

(** A line of five fields that is no contraction marker. *)
Definition plain_record (line : str) : Prop :=
  exists word lemma pos x ann,
    split TAB (strip line) = [word; lemma; pos; x; ann]
    /\ lemma <> u "_" /\ pos <> u "_".

(** [a <= b] on strings. *)
Definition str_le (a b : str) : Prop := str_ltb b a = false.

(** Whether [needle] occurs somewhere in [s]. *)
Fixpoint occurs (needle s : str) : bool :=
  startswith s needle
  || match s with
     | [] => false
     | _ :: r => occurs needle r
     end.

(** In a list of endings tried in order, no ending is followed by a longer
    ending that it ends. *)
Fixpoint longest_first (endings : list str) : bool :=
  match endings with
  | [] => true
  | a :: r =>
    forallb (fun b => (length b <=? length a) || negb (endswith b a)) r
    && longest_first r
  end.

(** * Properties *)

Unset Implicit Arguments.

Example u_greek : u "ος" = [959; 962]%N.
Proof. reflexivity. Qed.

Example split_tabs :
  split TAB (tsv ["a"; "b"; ""; "c"]) = [u "a"; u "b"; u ""; [99; 10]%N].
Proof. reflexivity. Qed.

Example strip_line : strip (32%N :: tsv ["με"; "_"]) = u "με" ++ [TAB] ++ u "_".
Proof. reflexivity. Qed.

Example stem_kalos :
  get_stem remove_tonos_el (u "καλός") (map u ["καλός"; "καλή"; "καλό"])
  = Ok (u "καλ").
Proof. reflexivity. Qed.

Example stem_grafo :
  get_stem remove_tonos_el (u "γραφω") [u "γραφω"] = Ok (u "γραφ").
Proof. reflexivity. Qed.

Example class_anthropos :
  analyze_inflections ascii_lower remove_tonos_el (u "άνθρωπος")
    (map u ["άνθρωπος"; "ανθρώπου"]) (u "NOUN")
  = Ok (u "ανθρωπο", u "noun-masc-ος").
Proof. reflexivity. Qed.

(** ** Strings and dictionaries *)

Lemma str_eqb_eq (a b : str) : str_eqb a b = true <-> a = b.
Proof.
  revert b; induction a as [|x a IH]; intros [|y b]; simpl;
    try (split; [discriminate | discriminate]); try tauto.
  rewrite andb_true_iff, N.eqb_eq, IH.
  split; [intros [-> ->]; reflexivity | intros H; inversion H; auto].
Qed.

Lemma str_eqb_refl (a : str) : str_eqb a a = true.
Proof. apply str_eqb_eq; reflexivity. Qed.

Lemma str_eqb_neq (a b : str) : str_eqb a b = false <-> a <> b.
Proof.
  rewrite <- str_eqb_eq. destruct (str_eqb a b); split; congruence.
Qed.

Lemma dict_get_set_eq (V : Type) (k : str) (v : V) (d : dict V) :
  dict_get k (dict_set k v d) = Some v.
Proof.
  induction d as [|[k' v'] d IH]; simpl.
  - now rewrite str_eqb_refl.
  - destruct (str_eqb k k') eqn:E; simpl.
    + now rewrite str_eqb_refl.
    + now rewrite E.
Qed.

Lemma dict_get_set_neq (V : Type) (k k' : str) (v : V) (d : dict V) :
  k' <> k -> dict_get k' (dict_set k v d) = dict_get k' d.
Proof.
  intros N. induction d as [|[k0 v0] d IH]; simpl.
  - apply str_eqb_neq in N. now rewrite N.
  - destruct (str_eqb k k0) eqn:E; simpl.
    + apply str_eqb_eq in E; subst k0.
      apply str_eqb_neq in N. now rewrite N.
    + destruct (str_eqb k' k0); auto.
Qed.

(** ** store_in *)

Lemma store_in_absent (t : table) (word : str) (lemma : option str)
    (pos ann : str) :
  in_table lemma t = false ->
  store_in t word lemma pos ann =
    if contains_char PLUS pos
    then dict_set word (Contraction pos (split PIPE ann)) t
    else if in_list pos INFLECTED
    then dict_set (match lemma with None => word | Some l => l end)
           (Inflected pos [(word, split PIPE ann)]) t
    else dict_set word (Bare pos) t.
Proof.
  unfold store_in, in_table, dict_mem.
  destruct lemma as [l|]; [|reflexivity].
  destruct (dict_get l t); [discriminate | reflexivity].
Qed.

(** C5, as amended: for a POS outside INFLECTED and without '+', [store_in]
    maps the surface form to the bare entry [{pos}] (and changes no other
    key) when the lemma is not yet a key of the table; when the lemma is
    already a key, the table is returned unchanged. *)
Theorem store_in_not_inflected (t : table) (word : str) (lemma : option str)
    (pos ann : str) :
  in_list pos INFLECTED = false ->
  contains_char PLUS pos = false ->
  (in_table lemma t = false ->
     dict_get word (store_in t word lemma pos ann) = Some (Bare pos)
     /\ forall k, k <> word ->
          dict_get k (store_in t word lemma pos ann) = dict_get k t)
  /\ (in_table lemma t = true -> store_in t word lemma pos ann = t).
Proof.
  intros Hinf Hplus; split; intros Hin.
  - rewrite store_in_absent by assumption. rewrite Hplus, Hinf. split.
    + apply dict_get_set_eq.
    + intros k Hk. now apply dict_get_set_neq.
  - unfold store_in, in_table, dict_mem in *.
    destruct lemma as [l|]; [|discriminate].
    destruct (dict_get l t); [|discriminate].
    now rewrite Hinf.
Qed.

Lemma store_in_not_inflected_witness :
  let t : table := [(u "ο", Inflected (u "DET") [(u "η", [u "Case=Nom"])])] in
  dict_get (u "με") (store_in t (u "με") (Some (u "με")) (u "ADP") (u "_"))
    = Some (Bare (u "ADP"))
  /\ store_in t (u "σε") (Some (u "ο")) (u "ADP") (u "_") = t.
Proof.
  intros t.
  destruct (store_in_not_inflected t (u "με") (Some (u "με")) (u "ADP") (u "_")
              eq_refl eq_refl) as [H1 _].
  destruct (store_in_not_inflected t (u "σε") (Some (u "ο")) (u "ADP") (u "_")
              eq_refl eq_refl) as [_ H2].
  split; [apply H1 | apply H2]; reflexivity.
Defined.

(** C5, as stated, fails: with the lemma already a key, the surface form
    gets no entry. *)
Lemma store_in_not_inflected_cex :
  ~ (forall (t : table) (word lemma pos ann : str),
       in_list pos INFLECTED = false ->
       contains_char PLUS pos = false ->
       exists e, dict_get word (store_in t word (Some lemma) pos ann) = Some e
                 /\ entry_pos e = pos /\ has_inflections e = false).
Proof.
  intros H.
  destruct (H [(u "ο", Inflected (u "DET") [(u "η", [u "Case=Nom"])])]
              (u "σε") (u "ο") (u "ADP") (u "_") eq_refl eq_refl)
    as (e & He & _).
  vm_compute in He. discriminate.
Qed.

(** C6: a lemma key bound to an entry without inflection map is rebound, by a
    call with a POS of INFLECTED, to the fresh entry
    [{pos, inflections: {word: annotations}}]; nothing of the prior entry is
    kept, and every other key is untouched. *)
Theorem store_in_overwrites_bare (t : table) (word lemma pos ann : str)
    (e : entry) :
  dict_get lemma t = Some e ->
  has_inflections e = false ->
  in_list pos INFLECTED = true ->
  store_in t word (Some lemma) pos ann
    = dict_set lemma (Inflected pos [(word, split PIPE ann)]) t
  /\ dict_get lemma (store_in t word (Some lemma) pos ann)
     = Some (Inflected pos [(word, split PIPE ann)])
  /\ forall k, k <> lemma ->
       dict_get k (store_in t word (Some lemma) pos ann) = dict_get k t.
Proof.
  intros Hget Hbare Hinf.
  assert (E : store_in t word (Some lemma) pos ann
              = dict_set lemma (Inflected pos [(word, split PIPE ann)]) t).
  { unfold store_in. rewrite Hget, Hinf.
    destruct e; [reflexivity | discriminate | reflexivity]. }
  rewrite E. split; [reflexivity | split].
  - apply dict_get_set_eq.
  - intros k Hk. now apply dict_get_set_neq.
Qed.

Lemma store_in_overwrites_bare_witness :
  dict_get (u "με")
    (store_in [(u "με", Bare (u "ADP"))] (u "με") (Some (u "με")) (u "PRON")
       (u "Case=Acc|Number=Sing"))
  = Some (Inflected (u "PRON") [(u "με", [u "Case=Acc"; u "Number=Sing"])]).
Proof.
  apply (store_in_overwrites_bare [(u "με", Bare (u "ADP"))] (u "με") (u "με")
           (u "PRON") (u "Case=Acc|Number=Sing") (Bare (u "ADP")));
    reflexivity.
Defined.

(** ** update_contraction and update *)

Lemma index_ok (A : Type) (xs : list A) (i : nat) (x : A) :
  nth_error xs i = Some x -> index xs i = Ok x.
Proof. unfold index; now intros ->. Qed.

Lemma index_out_of_range (A : Type) (xs : list A) (i : nat) :
  length xs <= i -> index xs i = Raise IndexError.
Proof.
  intros H. unfold index.
  now rewrite (proj2 (nth_error_None xs i) H).
Qed.

(** The body of the loop, one turn. *)
Lemma contraction_loop_S (n : nat) (lines : list str) (i : nat)
    (pos annotations : list str) :
  contraction_loop (S n) lines i pos annotations =
    if length lines <=? i then Ok (pos, annotations)
    else
      raw <- index lines (S i) ;;
      match strip raw with
      | [] => contraction_loop n lines (S i) pos annotations
      | _ :: _ =>
        let info := split TAB (strip raw) in
        if length info <? 5
        then contraction_loop n lines (S i) pos annotations
        else
          match info with
          | [_; _; next_pos; _; next_anns] =>
            contraction_loop n lines (S i) (pos ++ [next_pos])
              (if negb (str_eqb next_anns (u "_"))
               then annotations ++ [next_anns] else annotations)
          | _ => Raise ValueError
          end
      end.
Proof. reflexivity. Qed.

(** One turn of the loop on a following line of exactly five fields. *)
Lemma contraction_loop_step (n : nat) (lines : list str) (i : nat)
    (pos annotations : list str) (raw a b next_pos c next_anns : str) :
  nth_error lines (S i) = Some raw ->
  split TAB (strip raw) = [a; b; next_pos; c; next_anns] ->
  contraction_loop (S n) lines i pos annotations
  = contraction_loop n lines (S i) (pos ++ [next_pos])
      (if negb (str_eqb next_anns (u "_"))
       then annotations ++ [next_anns] else annotations).
Proof.
  intros Hnth Hsplit.
  assert (Hlt : S i < length lines)
    by (apply nth_error_Some; rewrite Hnth; discriminate).
  rewrite contraction_loop_S.
  destruct (Nat.leb_spec (length lines) i) as [Hle|_]; [lia|].
  rewrite (index_ok _ _ _ _ Hnth). cbn [bind].
  destruct (strip raw) as [|ch line'] eqn:Hstrip.
  - discriminate Hsplit.
  - cbv zeta. rewrite Hsplit. reflexivity.
Qed.

(** The combined POS of two following five-field lines, with the features
    equal to "_" left out of the join. *)
Lemma update_contraction_two_lines (lines : list str) (i : nat)
    (l1 l2 a1 b1 P1 c1 f1 a2 b2 P2 c2 f2 : str) :
  nth_error lines (S i) = Some l1 ->
  nth_error lines (S (S i)) = Some l2 ->
  split TAB (strip l1) = [a1; b1; P1; c1; f1] ->
  split TAB (strip l2) = [a2; b2; P2; c2; f2] ->
  update_contraction lines i
  = Ok (join [PLUS] [P1; P2],
        join [PIPE] (filter (fun f => negb (str_eqb f (u "_"))) [f1; f2])).
Proof.
  intros H1 H2 S1 S2. unfold update_contraction.
  rewrite (contraction_loop_step 1 lines i [] [] _ _ _ _ _ _ H1 S1).
  rewrite (contraction_loop_step 0 lines (S i) _ _ _ _ _ _ _ _ H2 S2).
  cbn [contraction_loop bind app filter].
  destruct (negb (str_eqb f1 (u "_"))), (negb (str_eqb f2 (u "_")));
    reflexivity.
Qed.

(** C7, as amended: for a record with lemma "_" or POS "_" whose next two
    lines exist and split, once stripped, into exactly five tab-fields with
    POS [P1], [P2] and features [f1], [f2] other than "_", contraction
    resolution yields the POS "P1+P2" and the features "f1|f2", and [update]
    stores the surface form under them. *)
Theorem update_contraction_combines (t : table) (word lemma pos x ann : str)
    (lines : list str) (i : nat)
    (l1 l2 a1 b1 P1 c1 f1 a2 b2 P2 c2 f2 : str) :
  lemma = u "_" \/ pos = u "_" ->
  nth_error lines (S i) = Some l1 ->
  nth_error lines (S (S i)) = Some l2 ->
  split TAB (strip l1) = [a1; b1; P1; c1; f1] ->
  split TAB (strip l2) = [a2; b2; P2; c2; f2] ->
  f1 <> u "_" ->
  f2 <> u "_" ->
  update_contraction lines i = Ok (P1 ++ [PLUS] ++ P2, f1 ++ [PIPE] ++ f2)
  /\ update t [word; lemma; pos; x; ann] lines i
     = Ok (store_in t word (Some lemma) (P1 ++ [PLUS] ++ P2)
             (f1 ++ [PIPE] ++ f2)).
Proof.
  intros Hmark H1 H2 S1 S2 N1 N2.
  assert (E : update_contraction lines i
              = Ok (P1 ++ [PLUS] ++ P2, f1 ++ [PIPE] ++ f2)).
  { rewrite (update_contraction_two_lines lines i _ _ _ _ _ _ _ _ _ _ _ _ H1 H2 S1 S2).
    cbn [filter].
    apply str_eqb_neq in N1, N2. rewrite N1, N2. reflexivity. }
  split; [exact E|].
  unfold update.
  assert (M : str_eqb lemma (u "_") || str_eqb pos (u "_") = true).
  { apply orb_true_iff.
    destruct Hmark as [-> | ->]; [left | right]; apply str_eqb_refl. }
  rewrite M, E. reflexivity.
Qed.

Lemma update_contraction_combines_witness :
  let lines := [tsv ["στο"; "_"; "_"; "_"; "_"];
                tsv ["σ"; "σε"; "ADP"; "ADP"; "AdpType=Prep"];
                tsv ["το"; "ο"; "DET"; "DET"; "Case=Acc|Number=Sing"]] in
  update_contraction lines 0
    = Ok (u "ADP+DET", u "AdpType=Prep|Case=Acc|Number=Sing")
  /\ update [] (map u ["στο"; "_"; "_"; "_"; "_"]) lines 0
     = Ok [(u "στο",
            Contraction (u "ADP+DET")
              (map u ["AdpType=Prep"; "Case=Acc"; "Number=Sing"]))].
Proof.
  intros lines.
  destruct (update_contraction_combines [] (u "στο") (u "_") (u "_") (u "_")
              (u "_") lines 0
              (tsv ["σ"; "σε"; "ADP"; "ADP"; "AdpType=Prep"])
              (tsv ["το"; "ο"; "DET"; "DET"; "Case=Acc|Number=Sing"])
              (u "σ") (u "σε") (u "ADP") (u "ADP") (u "AdpType=Prep")
              (u "το") (u "ο") (u "DET") (u "DET") (u "Case=Acc|Number=Sing")
              (or_introl eq_refl) eq_refl eq_refl eq_refl eq_refl)
    as [E1 E2]; try (vm_compute; discriminate).
  split; [exact E1 | exact E2].
Defined.

(** C7, as stated, fails: a following line of more than five fields passes
    the test [len(info) < 5] and the five-name unpacking raises
    [ValueError]. *)
Lemma update_contraction_six_fields_cex :
  ~ (forall (lines : list str) (i : nat) (l1 l2 : str),
       nth_error lines (S i) = Some l1 ->
       nth_error lines (S (S i)) = Some l2 ->
       strip l1 <> [] -> strip l2 <> [] ->
       5 <= length (split TAB (strip l1)) ->
       5 <= length (split TAB (strip l2)) ->
       nth 4 (split TAB (strip l1)) [] <> u "_" ->
       nth 4 (split TAB (strip l2)) [] <> u "_" ->
       update_contraction lines i
       = Ok (nth 2 (split TAB (strip l1)) [] ++ [PLUS]
               ++ nth 2 (split TAB (strip l2)) [],
             nth 4 (split TAB (strip l1)) [] ++ [PIPE]
               ++ nth 4 (split TAB (strip l2)) [])).
Proof.
  intros H.
  specialize (H [tsv ["στο"; "_"; "_"; "_"; "_"];
                 tsv ["σ"; "σε"; "ADP"; "ADP"; "AdpType=Prep"; "3"];
                 tsv ["το"; "ο"; "DET"; "DET"; "Case=Acc"; "3"]]
                0 _ _ eq_refl eq_refl).
  assert (E : update_contraction
                [tsv ["στο"; "_"; "_"; "_"; "_"];
                 tsv ["σ"; "σε"; "ADP"; "ADP"; "AdpType=Prep"; "3"];
                 tsv ["το"; "ο"; "DET"; "DET"; "Case=Acc"; "3"]] 0
              = Raise ValueError) by reflexivity.
  rewrite H in E; try discriminate; vm_compute; lia.
Qed.

(** C10: the end-of-file test of [update_contraction] compares [i] before
    incrementing it, so with fewer than two lines after position [i] the
    loop reads [lines[len(lines)]] and the call raises instead of joining
    the lines that exist. *)
Theorem update_contraction_raises_near_eof (lines : list str) (i : nat) :
  i < length lines ->
  length lines <= i + 2 ->
  exists e, update_contraction lines i = Raise e.
Proof.
  intros Hlt Hle.
  assert (Last : forall n j pos anns,
            S j = length lines ->
            contraction_loop (S n) lines j pos anns = Raise IndexError).
  { intros n j pos anns Hj. rewrite contraction_loop_S.
    destruct (Nat.leb_spec (length lines) j) as [?|_]; [lia|].
    rewrite index_out_of_range by lia. reflexivity. }
  unfold update_contraction.
  destruct (Nat.eq_dec (S i) (length lines)) as [Heq|Hne].
  - exists IndexError. now rewrite Last.
  - rewrite contraction_loop_S.
    destruct (Nat.leb_spec (length lines) i) as [?|_]; [lia|].
    destruct (nth_error lines (S i)) as [raw|] eqn:Hnth.
    2: { apply nth_error_None in Hnth. lia. }
    rewrite (index_ok _ _ _ _ Hnth). cbn [bind].
    destruct (strip raw) as [|ch line'].
    + exists IndexError. now rewrite Last by lia.
    + cbv zeta. destruct (length (split TAB (ch :: line')) <? 5).
      * exists IndexError. now rewrite Last by lia.
      * destruct (split TAB (ch :: line')) as [|? [|? [|? [|? [|? [|? ?]]]]]];
          try (exists ValueError; reflexivity).
        exists IndexError. now rewrite Last by lia.
Qed.

Lemma update_contraction_raises_near_eof_witness :
  exists e, update_contraction [tsv ["στο"; "_"; "_"; "_"; "_"]] 0 = Raise e.
Proof.
  apply (update_contraction_raises_near_eof
           [tsv ["στο"; "_"; "_"; "_"; "_"]] 0); simpl; lia.
Defined.

Example update_contraction_last_line :
  update_contraction [tsv ["στο"; "_"; "_"; "_"; "_"]] 0 = Raise IndexError.
Proof. reflexivity. Qed.

Example update_contraction_one_line_left :
  update_contraction
    [tsv ["στο"; "_"; "_"; "_"; "_"];
     tsv ["σ"; "σε"; "ADP"; "ADP"; "AdpType=Prep"]] 0
  = Raise IndexError.
Proof. reflexivity. Qed.

(** ** get_inflections *)

(** A line that does not split into five fields is met again at the next
    turn: [continue] leaves [i] as it is. *)
Lemma inflections_loop_stuck (fuel : nat) (lines : list str) (t : table)
    (i : nat) :
  i < length lines ->
  length (split TAB (strip (nth i lines []))) <> 5 ->
  inflections_loop fuel lines t i = None.
Proof.
  intros Hlt Hbad. induction fuel as [|fuel IH]; [reflexivity|].
  cbn [inflections_loop].
  destruct (Nat.ltb_spec i (length lines)) as [_|?]; [|lia].
  destruct (Nat.eqb_spec (length (split TAB (strip (nth i lines [])))) 5)
    as [?|_]; [contradiction|].
  exact IH.
Qed.

(** Lines of five fields each are consumed one per turn, so the loop ends
    (with a table or with an exception of [update]). *)
Lemma inflections_loop_well_formed (lines : list str) :
  Forall (fun l => length (split TAB (strip l)) = 5) lines ->
  forall n t i, length lines <= i + n ->
    exists r, inflections_loop (S n) lines t i = Some r.
Proof.
  intros Hall n. induction n as [|n IH]; intros t i Hlen.
  - cbn [inflections_loop].
    destruct (Nat.ltb_spec i (length lines)) as [?|_]; [lia|]. eauto.
  - cbn [inflections_loop].
    destruct (Nat.ltb_spec i (length lines)) as [Hlt|_]; [|eauto].
    rewrite Forall_forall in Hall.
    rewrite (Hall (nth i lines [])) by (now apply nth_In).
    cbn [Nat.eqb negb].
    destruct (update t _ lines i) as [t'|e]; [|eauto].
    apply (IH t' (S i)). lia.
Qed.

(** C1: on a corpus with a malformed line, [get_inflections] does not
    terminate: whatever the number of turns allowed, the loop is still at the
    malformed line, which is neither skipped nor followed by the processing
    of the remaining lines. *)
Theorem get_inflections_malformed_line_loops (fuel : nat) :
  get_inflections fuel
    [tsv ["με"; "με"; "ADP"];
     tsv ["η"; "ο"; "DET"; "DET"; "Case=Nom"]] = None.
Proof.
  unfold get_inflections. apply inflections_loop_stuck.
  - simpl; lia.
  - vm_compute. discriminate.
Qed.

Example get_inflections_well_formed :
  get_inflections 3
    [tsv ["με"; "με"; "ADP"; "ADP"; "_"];
     tsv ["η"; "ο"; "DET"; "DET"; "Case=Nom"]]
  = Some (Ok [(u "με", Bare (u "ADP"));
              (u "ο", Inflected (u "DET") [(u "η", [u "Case=Nom"])])]).
Proof. reflexivity. Qed.

(** ** from_conllu *)

Lemma in_list_In (x : str) (xs : list str) : in_list x xs = true <-> In x xs.
Proof.
  unfold in_list. rewrite existsb_exists. split.
  - intros (y & Hy & E). apply str_eqb_eq in E. now subst.
  - intros H. exists x. split; [assumption | apply str_eqb_refl].
Qed.

(** [line.split(sep, 1)] cuts at the first separator of [line.split(sep)]. *)
Lemma split_max_1_split (sep : char) (s : str) :
  match split_max sep 1 s with
  | [a] => split sep s = [a]
  | [a; b] => split sep s = a :: split sep b
  | _ => False
  end.
Proof.
  induction s as [|c r IH]; [reflexivity|].
  change (split_max sep 1 (c :: r))
    with (if (c =? sep)%N then [] :: split_max sep 0 r
          else match split_max sep 1 r with
               | [] => [[c]]
               | f :: fs => (c :: f) :: fs
               end).
  cbn [split]. destruct (c =? sep)%N.
  - now destruct r.
  - destruct (split_max sep 1 r) as [|a [|b [|? ?]]]; try contradiction;
      now rewrite IH.
Qed.

Lemma from_conllu_app (lower : str -> str) (isdecimal : char -> bool)
    (l1 l2 : list str) :
  from_conllu lower isdecimal (l1 ++ l2)
  = from_conllu lower isdecimal l1 ++ from_conllu lower isdecimal l2.
Proof.
  induction l1 as [|l l1 IH]; [reflexivity|].
  cbn [app from_conllu].
  destruct (conllu_line lower isdecimal l); cbn [app]; now rewrite IH.
Qed.

(** C3, as amended: a corpus line one of whose tab-fields after the first
    is, as a whole field, one of the ignore markers, or whose surface form
    (the second field) contains a decimal digit, appends nothing to the
    output of [from_conllu]; the lines around it are treated as without
    it. *)
Theorem from_conllu_excludes (lower : str -> str) (isdecimal : char -> bool)
    (line : str) :
  (exists f, In f (tl (split TAB line)) /\ In f TO_IGNORE)
  \/ existsb isdecimal (nth 1 (split TAB line) []) = true ->
  conllu_line lower isdecimal line = None
  /\ forall l1 l2,
       from_conllu lower isdecimal (l1 ++ line :: l2)
       = from_conllu lower isdecimal (l1 ++ l2).
Proof.
  intros H.
  assert (E : conllu_line lower isdecimal line = None).
  { unfold conllu_line. destruct (startswith line [HASH]); [reflexivity|].
    pose proof (split_max_1_split TAB line) as Hs.
    destruct (split_max TAB 1 line) as [|a [|b [|? ?]]]; try contradiction.
    - rewrite Hs in H. cbn in H. destruct H as [(f & [] & _) | H]; discriminate.
    - rewrite Hs in H. cbn [tl nth] in H.
      replace (existsb (fun n => in_list n TO_IGNORE) (split TAB b)
               || existsb isdecimal (hd [] (split TAB b))) with true;
        [reflexivity|].
      symmetry. apply orb_true_iff. destruct H as [(f & Hin & Hig) | H].
      + left. apply existsb_exists. exists f. split; [assumption|].
        now apply in_list_In.
      + right. now destruct (split TAB b). }
  split; [exact E|]. intros l1 l2.
  rewrite !from_conllu_app. cbn [from_conllu]. now rewrite E.
Qed.

Lemma from_conllu_excludes_witness :
  conllu_line ascii_lower ascii_decimal
    (tsv ["2"; "Μάντσεστερ"; "Μάντσεστερ"; "X"; "X"; "Foreign=Yes"; "4";
          "nsubj"; "_"; "_"]) = None
  /\ conllu_line ascii_lower ascii_decimal
       (tsv ["7"; "e5"; "e5"; "NOUN"; "NOUN"; "_"; "4"; "obj"; "_"; "_"])
     = None.
Proof.
  split.
  - apply (from_conllu_excludes ascii_lower ascii_decimal).
    left. exists (u "Foreign=Yes"). split; vm_compute; tauto.
  - apply (from_conllu_excludes ascii_lower ascii_decimal).
    right. reflexivity.
Defined.

(** C3, as stated, fails: the test [n in TO_IGNORE] compares whole fields, so
    a marker that is one of several pipe-joined features does not exclude
    the line. *)
Lemma from_conllu_pipe_joined_marker_cex :
  ~ (forall line m,
       In m TO_IGNORE ->
       substring m (nth 5 (split TAB line) []) ->
       conllu_line ascii_lower ascii_decimal line = None).
Proof.
  intros H.
  specialize (H (tsv ["1"; "usa"; "usa"; "PROPN"; "PROPN";
                      "Abbr=Yes|Case=Nom"; "0"; "root"; "_"; "_"])
                (u "Abbr=Yes")).
  assert (E : conllu_line ascii_lower ascii_decimal
                (tsv ["1"; "usa"; "usa"; "PROPN"; "PROPN";
                      "Abbr=Yes|Case=Nom"; "0"; "root"; "_"; "_"])
              = Some (u "usa" ++ [TAB] ++ u "usa" ++ [TAB] ++ u "PROPN"
                      ++ [TAB] ++ u "PROPN" ++ [TAB]
                      ++ u "Abbr=Yes|Case=Nom" ++ [NL])) by reflexivity.
  rewrite H in E; [discriminate| |].
  - vm_compute. tauto.
  - exists [], (u "|Case=Nom"). reflexivity.
Qed.

Example from_conllu_keeps_word :
  from_conllu ascii_lower ascii_decimal
    [u "# text = ..." ++ [NL];
     tsv ["1"; "H"; "o"; "DET"; "DET"; "Case=Nom"; "2"; "det"; "_"; "_"];
     [NL];
     tsv ["2"; "."; "."; "PUNCT"; "PUNCT"; "_"; "1"; "punct"; "_"; "_"]]
  = [u "h" ++ [TAB] ++ u "o" ++ [TAB] ++ u "DET" ++ [TAB] ++ u "DET"
     ++ [TAB] ++ u "Case=Nom" ++ [NL]].
Proof. reflexivity. Qed.

(** ** Prefixes, suffixes and the order of strings *)

Lemma prefix_nil (s : str) : prefix [] s.
Proof. now exists s. Qed.

Lemma prefix_cons (x y : char) (p s : str) :
  prefix (x :: p) (y :: s) <-> x = y /\ prefix p s.
Proof.
  split.
  - intros [r E]. inversion E; subst. split; [reflexivity | now exists r].
  - intros [-> [r ->]]. now exists r.
Qed.

Lemma prefix_of_nil (p : str) : prefix p [] -> p = [].
Proof. intros [r E]. now destruct p. Qed.

Lemma prefix_antisym (p q : str) : prefix p q -> prefix q p -> p = q.
Proof.
  revert q; induction p as [|x p IH]; intros q Hpq Hqp.
  - symmetry. now apply prefix_of_nil.
  - destruct q as [|y q]; [now apply prefix_of_nil in Hpq|].
    apply prefix_cons in Hpq, Hqp. destruct Hpq as [-> Hpq], Hqp as [_ Hqp].
    f_equal. now apply IH.
Qed.

Lemma startswith_prefix (s p : str) : startswith s p = true <-> prefix p s.
Proof.
  revert s; induction p as [|x p IH]; intros s.
  - split; [intros _; apply prefix_nil | now destruct s].
  - destruct s as [|y s]; cbn [startswith].
    + split; [discriminate | intros H; apply prefix_of_nil in H; discriminate].
    + rewrite andb_true_iff, N.eqb_eq, IH, prefix_cons. tauto.
Qed.

Lemma endswith_suffix (s e : str) : endswith s e = true <-> suffix e s.
Proof.
  unfold endswith. rewrite startswith_prefix. split.
  - intros [r E]. exists (rev r).
    rewrite <- (rev_involutive s), E, rev_app_distr, rev_involutive.
    reflexivity.
  - intros [r ->]. exists (rev r). apply rev_app_distr.
Qed.

Lemma find_none_iff (A : Type) (f : A -> bool) (l : list A) :
  find f l = None <-> forall x, In x l -> f x = false.
Proof.
  split; [apply find_none|].
  induction l as [|a l IH]; intros H; [reflexivity|].
  cbn [find]. rewrite (H a) by (now left). apply IH.
  intros x Hx. apply H. now right.
Qed.

(** [a <= b] is [str_ltb b a = false]. *)
Lemma str_le_trans (a b c : str) :
  str_ltb b a = false -> str_ltb c b = false -> str_ltb c a = false.
Proof.
  revert b c; induction a as [|x a IH]; intros b c Hab Hbc.
  - now destruct c.
  - destruct b as [|y b]; [discriminate|].
    destruct c as [|z c]; [discriminate|].
    cbn [str_ltb] in *.
    apply orb_false_iff in Hab, Hbc. destruct Hab as [H1 H2], Hbc as [H3 H4].
    apply N.ltb_ge in H1, H3. apply orb_false_iff. split.
    + apply N.ltb_ge. lia.
    + destruct (N.eqb_spec z x) as [->|]; [|reflexivity].
      assert (y = x) by lia. subst y.
      rewrite N.eqb_refl in H2, H4. cbn [andb] in *. now apply (IH b c).
Qed.

Lemma str_ltb_asym (a b : str) : str_ltb a b = true -> str_ltb b a = false.
Proof.
  revert b; induction a as [|x a IH]; intros [|y b] H; try reflexivity;
    try discriminate.
  cbn [str_ltb] in *. apply orb_true_iff in H. apply orb_false_iff.
  destruct H as [H|H].
  - apply N.ltb_lt in H. split; [apply N.ltb_ge; lia|].
    destruct (N.eqb_spec y x); [lia | reflexivity].
  - apply andb_true_iff in H. destruct H as [E H]. apply N.eqb_eq in E.
    subst y. split; [apply N.ltb_irrefl|].
    rewrite N.eqb_refl. cbn [andb]. now apply IH.
Qed.

Lemma str_ltb_irrefl (a : str) : str_ltb a a = false.
Proof.
  induction a as [|x a IH]; [reflexivity|].
  cbn [str_ltb]. now rewrite N.ltb_irrefl, N.eqb_refl, IH.
Qed.

(** ** min and max *)

Lemma min_str_In (best : str) (rest : list str) :
  In (min_str best rest) (best :: rest).
Proof.
  revert best; induction rest as [|x r IH]; intros best; [now left|].
  cbn [min_str]. destruct (IH (if str_ltb x best then x else best)) as [E|H].
  - rewrite <- E. destruct (str_ltb x best); [right; now left | now left].
  - right. now right.
Qed.

Lemma max_str_In (best : str) (rest : list str) :
  In (max_str best rest) (best :: rest).
Proof.
  revert best; induction rest as [|x r IH]; intros best; [now left|].
  cbn [max_str]. destruct (IH (if str_ltb best x then x else best)) as [E|H].
  - rewrite <- E. destruct (str_ltb best x); [right; now left | now left].
  - right. now right.
Qed.

Lemma min_str_le (best : str) (rest : list str) (s : str) :
  In s (best :: rest) -> str_ltb s (min_str best rest) = false.
Proof.
  revert best s; induction rest as [|x r IH]; intros best s Hs.
  - destruct Hs as [<-|[]]. apply str_ltb_irrefl.
  - cbn [min_str]. set (b := if str_ltb x best then x else best).
    assert (Hb : str_ltb b (min_str b r) = false) by (apply IH; now left).
    destruct Hs as [<-|[<-|Hs]].
    + subst b. destruct (str_ltb x best) eqn:E; [|exact Hb].
      apply (str_le_trans _ x _ Hb). now apply str_ltb_asym.
    + subst b. destruct (str_ltb x best) eqn:E; [exact Hb|].
      now apply (str_le_trans _ best _ Hb).
    + apply IH. now right.
Qed.

Lemma max_str_ge (best : str) (rest : list str) (s : str) :
  In s (best :: rest) -> str_ltb (max_str best rest) s = false.
Proof.
  revert best s; induction rest as [|x r IH]; intros best s Hs.
  - destruct Hs as [<-|[]]. apply str_ltb_irrefl.
  - cbn [max_str]. set (b := if str_ltb best x then x else best).
    assert (Hb : str_ltb (max_str b r) b = false) by (apply IH; now left).
    destruct Hs as [<-|[<-|Hs]].
    + subst b. destruct (str_ltb best x) eqn:E; [|exact Hb].
      apply (str_le_trans _ x _); [now apply str_ltb_asym | exact Hb].
    + subst b. destruct (str_ltb best x) eqn:E; [exact Hb|].
      now apply (str_le_trans _ best _).
    + apply IH. now right.
Qed.

(** ** commonprefix *)

(** On [s1 <= s2] the loop never reads past the end of [s2], and returns
    the longest common prefix of the two. *)
Lemma common_loop_spec (s1 s2 : str) :
  str_ltb s2 s1 = false ->
  exists p, common_loop s1 s2 = Ok p
            /\ prefix p s1 /\ prefix p s2
            /\ forall q, prefix q s1 -> prefix q s2 -> prefix q p.
Proof.
  revert s2; induction s1 as [|c r1 IH]; intros s2 Hle.
  - exists []. repeat split; try apply prefix_nil. intros q Hq _. exact Hq.
  - destruct s2 as [|d r2]; [discriminate|].
    cbn [common_loop str_ltb] in *.
    destruct (N.eqb_spec c d) as [<-|Hne].
    + rewrite N.ltb_irrefl, N.eqb_refl in Hle. cbn [orb andb] in Hle.
      destruct (IH r2 Hle) as (p & -> & H1 & H2 & Hmax).
      exists (c :: p). repeat split; try (apply prefix_cons; now split).
      intros [|e q] Hq1 Hq2; [apply prefix_nil|].
      apply prefix_cons in Hq1, Hq2. destruct Hq1 as [-> Hq1], Hq2 as [_ Hq2].
      apply prefix_cons. split; [reflexivity | now apply Hmax].
    + exists []. repeat split; try apply prefix_nil.
      intros [|e q] Hq1 Hq2; [apply prefix_nil|].
      apply prefix_cons in Hq1, Hq2. destruct Hq1 as [-> _], Hq2 as [-> _].
      contradiction.
Qed.

(** A common prefix of two strings is a prefix of every string between
    them. *)
Lemma prefix_between (p s1 s s2 : str) :
  prefix p s1 -> prefix p s2 ->
  str_ltb s s1 = false -> str_ltb s2 s = false ->
  prefix p s.
Proof.
  revert s1 s s2; induction p as [|x p IH]; intros s1 s s2 H1 H2 L1 L2;
    [apply prefix_nil|].
  destruct s1 as [|y1 s1]; [apply prefix_of_nil in H1; discriminate|].
  destruct s2 as [|y2 s2]; [apply prefix_of_nil in H2; discriminate|].
  apply prefix_cons in H1, H2. destruct H1 as [<- H1], H2 as [<- H2].
  destruct s as [|e s]; [discriminate|].
  cbn [str_ltb] in L1, L2. apply orb_false_iff in L1, L2.
  destruct L1 as [A1 B1], L2 as [A2 B2]. apply N.ltb_ge in A1, A2.
  assert (e = x) by lia. subst e.
  rewrite N.eqb_refl in B1, B2. cbn [andb] in *.
  apply prefix_cons. split; [reflexivity | now apply (IH s1 s s2)].
Qed.

Lemma commonprefix_spec (x : str) (r : list str) :
  exists p, commonprefix (x :: r) = Ok p /\ longest_common_prefix p (x :: r).
Proof.
  unfold commonprefix.
  destruct (common_loop_spec (min_str x r) (max_str x r))
    as (p & E & H1 & H2 & Hmax).
  { apply max_str_ge, min_str_In. }
  exists p. split; [exact E|]. split.
  - apply Forall_forall. intros s Hs.
    apply (prefix_between p (min_str x r) s (max_str x r)); auto.
    + now apply min_str_le.
    + now apply max_str_ge.
  - intros q Hq. rewrite Forall_forall in Hq.
    apply Hmax; apply Hq; [apply min_str_In | apply max_str_In].
Qed.

Lemma longest_common_prefix_unique (p q : str) (m : list str) :
  longest_common_prefix p m -> longest_common_prefix q m -> p = q.
Proof.
  intros [Hp Mp] [Hq Mq]. apply prefix_antisym; auto.
Qed.

Lemma commonprefix_lcp (x : str) (r : list str) (p : str) :
  commonprefix (x :: r) = Ok p <-> longest_common_prefix p (x :: r).
Proof.
  destruct (commonprefix_spec x r) as (p' & E & H). split.
  - rewrite E. intros [= <-]. exact H.
  - intros Hp. rewrite E. f_equal.
    exact (longest_common_prefix_unique _ _ _ H Hp).
Qed.

(** ** get_stem *)

Section Stem.

Variable remove_tonos : str -> str.

Lemma get_stem_eq (lemma : str) (words : list str) :
  exists p,
    longest_common_prefix p (remove_tonos lemma :: map remove_tonos words)
    /\ get_stem remove_tonos lemma words =
       if (length p <? 4) || (length words <? 2)
       then match find (endswith (remove_tonos lemma)) LEMMA_SUFFIXES with
            | Some suffix => Ok (re_sub_end suffix (remove_tonos lemma))
            | None => Ok p
            end
       else Ok p.
Proof.
  destruct (commonprefix_spec (remove_tonos lemma) (map remove_tonos words))
    as (p & E & H).
  exists p. split; [exact H|].
  unfold get_stem. cbn [app]. rewrite E. cbn [bind].
  destruct ((length p <? 4) || (length words <? 2)); [|reflexivity].
  now destruct (find _ LEMMA_SUFFIXES).
Qed.

(** [get_stem] raises nothing. *)
Lemma get_stem_total (lemma : str) (words : list str) :
  exists stem, get_stem remove_tonos lemma words = Ok stem.
Proof.
  destruct (get_stem_eq lemma words) as (p & _ & ->).
  destruct ((length p <? 4) || (length words <? 2)); [|eauto].
  destruct (find _ LEMMA_SUFFIXES); eauto.
Qed.

(** C8: with at least two recorded forms and a longest common prefix, of
    the normalised lemma and the normalised forms, of length at least 4,
    the stem is that prefix. *)
Theorem get_stem_common_prefix (lemma : str) (words : list str) (p : str) :
  2 <= length words ->
  longest_common_prefix p (remove_tonos lemma :: map remove_tonos words) ->
  4 <= length p ->
  get_stem remove_tonos lemma words = Ok p.
Proof.
  intros Hw Hp Hlen.
  destruct (get_stem_eq lemma words) as (p' & Hp' & ->).
  rewrite (longest_common_prefix_unique _ _ _ Hp' Hp).
  destruct (Nat.ltb_spec (length p) 4); [lia|].
  destruct (Nat.ltb_spec (length words) 2); [lia|].
  reflexivity.
Qed.

(** C4, as amended: when the suffix branch is taken and the normalised lemma
    ends in none of the lemma endings, the stem stays the common prefix of
    the normalised lemma and the normalised forms; it is the normalised lemma
    when no form is recorded. *)
Theorem get_stem_no_suffix (lemma : str) (words : list str) (p : str) :
  longest_common_prefix p (remove_tonos lemma :: map remove_tonos words) ->
  length p < 4 \/ length words < 2 ->
  (forall s, In s LEMMA_SUFFIXES -> ~ suffix s (remove_tonos lemma)) ->
  get_stem remove_tonos lemma words = Ok p
  /\ (words = [] -> p = remove_tonos lemma).
Proof.
  intros Hp Hbranch Hnone. split.
  - destruct (get_stem_eq lemma words) as (p' & Hp' & ->).
    rewrite (longest_common_prefix_unique _ _ _ Hp' Hp).
    replace (find (endswith (remove_tonos lemma)) LEMMA_SUFFIXES) with
      (@None str).
    + now destruct ((length p <? 4) || (length words <? 2)).
    + symmetry. apply find_none_iff. intros s Hs.
      destruct (endswith (remove_tonos lemma) s) eqn:E; [|reflexivity].
      apply endswith_suffix in E. now apply Hnone in E.
  - intros ->. cbn [map] in Hp. destruct Hp as [Hall Hmax].
    apply prefix_antisym.
    + now inversion Hall.
    + apply Hmax. constructor; [exists []; now rewrite app_nil_r | constructor].
Qed.

End Stem.

Lemma no_suffix_of_find (l : str) :
  find (endswith l) LEMMA_SUFFIXES = None ->
  forall s, In s LEMMA_SUFFIXES -> ~ suffix s l.
Proof.
  intros H s Hs Hsuf. apply endswith_suffix in Hsuf.
  rewrite (proj1 (find_none_iff _ _ _) H s Hs) in Hsuf. discriminate.
Qed.

Lemma get_stem_common_prefix_witness :
  get_stem remove_tonos_el (u "καλός") (map u ["καλός"; "καλού"; "καλούς"])
  = Ok (u "καλο").
Proof.
  apply get_stem_common_prefix.
  - simpl; lia.
  - apply commonprefix_lcp. reflexivity.
  - vm_compute; lia.
Defined.

Lemma get_stem_no_suffix_witness :
  get_stem remove_tonos_el (u "πολύς") (map u ["πολλά"; "πολλή"])
  = Ok (u "πολ").
Proof.
  apply (get_stem_no_suffix remove_tonos_el (u "πολύς")
           (map u ["πολλά"; "πολλή"]) (u "πολ")).
  - apply commonprefix_lcp. reflexivity.
  - left. vm_compute; lia.
  - apply no_suffix_of_find. reflexivity.
Defined.

(** C4, as stated, fails: with no lemma ending matching, the stem is the
    common prefix computed before the test, not the normalised lemma. *)
Lemma get_stem_no_suffix_cex :
  ~ (forall lemma words,
       (exists p,
          longest_common_prefix p
            (remove_tonos_el lemma :: map remove_tonos_el words)
          /\ length p < 4)
       \/ length words < 2 ->
       (forall s, In s LEMMA_SUFFIXES -> ~ suffix s (remove_tonos_el lemma)) ->
       get_stem remove_tonos_el lemma words = Ok (remove_tonos_el lemma)).
Proof.
  intros H.
  assert (E : get_stem remove_tonos_el (u "πολυς") (map u ["πολλα"; "πολλη"])
              = Ok (u "πολ")) by reflexivity.
  rewrite H in E.
  - vm_compute in E. discriminate.
  - left. exists (u "πολ"). split.
    + apply commonprefix_lcp. reflexivity.
    + vm_compute; lia.
  - apply no_suffix_of_find. reflexivity.
Qed.

(** ** get_class and analyze_inflections *)

(** The class that wins is the first, in the order of the table, with an
    ending that ends the lemma; the classes after it are not looked at. *)
Lemma first_class_first_match (lemma : str) (pre post : dict (list str))
    (tag : str) (ends : list str) :
  (forall c e, In c pre -> In e (snd c) -> ~ suffix e lemma) ->
  (exists e, In e ends /\ suffix e lemma) ->
  first_class lemma (pre ++ (tag, ends) :: post) = Some (tag, ends).
Proof.
  intros Hpre (e & He & Hsuf). unfold first_class.
  induction pre as [|c pre IH]; cbn [app find snd].
  - replace (existsb (endswith lemma) ends) with true; [reflexivity|].
    symmetry. apply existsb_exists. exists e. split; [assumption|].
    now apply endswith_suffix.
  - replace (existsb (endswith lemma) (snd c)) with false.
    + apply IH. intros c' e' Hc'. apply Hpre. now right.
    + symmetry. apply not_true_is_false. intros Hex.
      apply existsb_exists in Hex. destruct Hex as (e' & He' & E).
      apply endswith_suffix in E. exact (Hpre c e' (or_introl eq_refl) He' E).
Qed.

Lemma get_class_first_match (lemma pos : str) (pre post : dict (list str))
    (tag : str) (ends : list str) :
  dict_get pos CLASSES = Some (pre ++ (tag, ends) :: post) ->
  (forall c e, In c pre -> In e (snd c) -> ~ suffix e lemma) ->
  (exists e, In e ends /\ suffix e lemma) ->
  get_class lemma pos = Ok (Some tag).
Proof.
  intros Hpos Hpre Hends. unfold get_class. rewrite Hpos.
  now rewrite (first_class_first_match lemma pre post tag ends Hpre Hends).
Qed.

Lemma get_class_no_match (lemma pos : str) (classes : dict (list str)) :
  dict_get pos CLASSES = Some classes ->
  pos <> u "VERB" ->
  (forall c e, In c classes -> In e (snd c) -> ~ suffix e lemma) ->
  get_class lemma pos = Ok None.
Proof.
  intros Hpos Hverb Hnone. unfold get_class. rewrite Hpos.
  replace (first_class lemma classes) with (@None (str * list str)).
  - apply str_eqb_neq in Hverb. now rewrite Hverb.
  - symmetry. apply find_none_iff. intros c Hc.
    apply not_true_is_false. intros Hex.
    apply existsb_exists in Hex. destruct Hex as (e & He & E).
    apply endswith_suffix in E. exact (Hnone c e Hc He E).
Qed.

Lemma get_class_ok_or_keyerror (lemma pos : str) :
  (exists c, get_class lemma pos = Ok c) \/ get_class lemma pos = Raise KeyError.
Proof.
  unfold get_class. destruct (dict_get pos CLASSES); [left | now right].
  destruct (first_class lemma d) as [[tag ?]|]; [eauto|].
  destruct (str_eqb pos (u "VERB")); eauto.
Qed.

Section Lexicon.

Variable lower : str -> str.
Variable remove_tonos : str -> str.

(** [str.lower] on ASCII text. *)
Hypothesis lower_ascii : forall s, is_ascii s = true -> lower s = ascii_lower s.

(** C9: class assignment is first-match-wins over the ordered table of the
    POS.  For every lemma and POS, the class returned by [get_class] is the
    first class of the table, in its order, one of whose endings ends the
    lemma, whatever the classes after it contain, and [analyze_inflections]
    emits the lowercased POS, a hyphen and that class.  In particular a NOUN
    lemma ending in "ος" is tagged "noun-masc-ος"; and a VERB lemma ending
    in "άω", which the later class "a" (ending "ω") matches as well, gets the
    earlier class "b1". *)
Theorem get_class_first_match_wins :
  (forall lemma pos pre post tag ends,
     dict_get pos CLASSES = Some (pre ++ (tag, ends) :: post) ->
     (forall c e, In c pre -> In e (snd c) -> ~ suffix e lemma) ->
     (exists e, In e ends /\ suffix e lemma) ->
     get_class lemma pos = Ok (Some tag)
     /\ forall words, exists stem,
          analyze_inflections lower remove_tonos lemma words pos
          = Ok (stem, lower pos ++ u "-" ++ tag))
  /\ (forall lemma words,
        suffix (u "ος") lemma ->
        get_class lemma (u "NOUN") = Ok (Some (u "masc-ος"))
        /\ exists stem,
             analyze_inflections lower remove_tonos lemma words (u "NOUN")
             = Ok (stem, u "noun-masc-ος"))
  /\ (forall lemma,
        suffix (u "άω") lemma ->
        (exists c e, In c (tl VERB_CLASSES) /\ fst c = u "a"
                     /\ In e (snd c) /\ suffix e lemma)
        /\ get_class lemma (u "VERB") = Ok (Some (u "b1"))).
Proof.
  assert (General : forall lemma pos pre post tag ends,
     dict_get pos CLASSES = Some (pre ++ (tag, ends) :: post) ->
     (forall c e, In c pre -> In e (snd c) -> ~ suffix e lemma) ->
     (exists e, In e ends /\ suffix e lemma) ->
     get_class lemma pos = Ok (Some tag)
     /\ forall words, exists stem,
          analyze_inflections lower remove_tonos lemma words pos
          = Ok (stem, lower pos ++ u "-" ++ tag)).
  { intros lemma pos pre post tag ends Hpos Hpre Hends.
    pose proof (get_class_first_match lemma pos pre post tag ends
                  Hpos Hpre Hends) as E.
    split; [exact E|]. intros words.
    destruct (get_stem_total remove_tonos lemma words) as [stem Hstem].
    exists stem. unfold analyze_inflections.
    rewrite Hstem, E. reflexivity. }
  split; [exact General | split].
  - intros lemma words Hsuf.
    destruct (General lemma (u "NOUN") [] (tl NOUN_CLASSES) (u "masc-ος")
                [u "ος"]) as [E Han].
    + reflexivity.
    + intros c e [].
    + exists (u "ος"). split; [now left | assumption].
    + split; [exact E|]. destruct (Han words) as [stem Hstem].
      exists stem. rewrite Hstem, lower_ascii by reflexivity. reflexivity.
  - intros lemma Hsuf. split.
    + exists (u "a", [u "ω"]), (u "ω").
      split; [right; now left|]. split; [reflexivity|].
      split; [now left|].
      destruct Hsuf as [r ->]. exists (r ++ u "ά").
      rewrite <- app_assoc. reflexivity.
    + apply (get_class_first_match lemma (u "VERB") [] (tl VERB_CLASSES)
               (u "b1") (map u ["άω"; "έω"])).
      * reflexivity.
      * intros c e [].
      * exists (u "άω"). split; [now left | assumption].
Qed.

(** The part of C2 the code fulfils: an ADJ, NOUN or PRON entry whose lemma
    ends in none of the endings of its table gives the row of the raw lemma
    and the lowercased POS. *)
Lemma lexicon_row_unmatched (lemma : str) (info : entry)
    (classes : dict (list str)) :
  In (entry_pos info) (map u ["ADJ"; "NOUN"; "PRON"]) ->
  dict_get (entry_pos info) CLASSES = Some classes ->
  (forall c e, In c classes -> In e (snd c) -> ~ suffix e lemma) ->
  lexicon_row lower remove_tonos lemma info
  = Ok (lexicon_line lemma lemma (lower (entry_pos info))).
Proof.
  intros Hpos Hcl Hnone. unfold lexicon_row, analyze_inflections.
  assert (Hstem : in_list (entry_pos info) TO_STEM = true
                  /\ entry_pos info <> u "VERB").
  { destruct Hpos as [<-|[<-|[<-|[]]]]; split; (reflexivity || discriminate). }
  destruct Hstem as [-> Hverb]. cbn [negb].
  destruct (get_stem_total remove_tonos lemma (entry_words info))
    as [stem ->].
  rewrite (get_class_no_match lemma _ classes Hcl Hverb Hnone).
  reflexivity.
Qed.

Lemma lexicon_row_propn (lemma : str) (info : entry) :
  entry_pos info = u "PROPN" ->
  lexicon_row lower remove_tonos lemma info = Raise KeyError.
Proof.
  intros E. unfold lexicon_row, analyze_inflections. rewrite E.
  destruct (get_stem_total remove_tonos lemma (entry_words info))
    as [stem ->].
  reflexivity.
Qed.

Lemma lexicon_row_ok_or_keyerror (lemma : str) (info : entry) :
  (exists row, lexicon_row lower remove_tonos lemma info = Ok row)
  \/ lexicon_row lower remove_tonos lemma info = Raise KeyError.
Proof.
  unfold lexicon_row, analyze_inflections.
  destruct (negb (in_list (entry_pos info) TO_STEM)); [eauto|].
  destruct (get_stem_total remove_tonos lemma (entry_words info))
    as [stem ->].
  destruct (get_class_ok_or_keyerror lemma (entry_pos info)) as [[c ->]| ->];
    [left | now right].
  destruct c; cbn [bind]; eauto.
Qed.

(** C2: [TO_STEM] sends PROPN entries to [get_class], and [CLASSES] has no
    PROPN key: on a table with a proper noun no row is emitted at all,
    [get_greek_lexicon] raises [KeyError]. *)
Theorem get_greek_lexicon_propn_raises (d : table) (lemma : str)
    (info : entry) :
  In (lemma, info) d ->
  entry_pos info = u "PROPN" ->
  get_greek_lexicon lower remove_tonos d = Raise KeyError.
Proof.
  intros Hin Hpos. unfold get_greek_lexicon.
  assert (E : lexicon_rows lower remove_tonos d = Raise KeyError).
  { induction d as [|[l i] d IH]; [destruct Hin|].
    cbn [lexicon_rows].
    destruct Hin as [[= -> ->]|Hin].
    - now rewrite lexicon_row_propn.
    - destruct (lexicon_row_ok_or_keyerror l i) as [[row ->]| ->];
        [|reflexivity].
      cbn [bind]. now rewrite IH. }
  now rewrite E.
Qed.

End Lexicon.

Lemma get_class_first_match_wins_witness :
  get_class (u "πρόβλημα") (u "NOUN") = Ok (Some (u "neut-μα"))
  /\ (exists stem,
        analyze_inflections ascii_lower remove_tonos_el (u "άνθρωπος")
          (map u ["άνθρωπος"; "ανθρώπου"]) (u "NOUN")
        = Ok (stem, u "noun-masc-ος"))
  /\ get_class (u "αγαπάω") (u "VERB") = Ok (Some (u "b1")).
Proof.
  destruct (get_class_first_match_wins ascii_lower remove_tonos_el
              (fun s _ => eq_refl)) as (General & Noun & Verb).
  split; [|split].
  - apply (General (u "πρόβλημα") (u "NOUN") (firstn 3 NOUN_CLASSES)
             (skipn 4 NOUN_CLASSES) (u "neut-μα") [u "μα"]).
    + reflexivity.
    + intros c e Hc He Hsuf. apply endswith_suffix in Hsuf.
      vm_compute in Hc.
      repeat (destruct Hc as [<-|Hc];
              [vm_compute in He;
               repeat (destruct He as [<-|He]; [discriminate Hsuf|]);
               destruct He|]).
      destruct Hc.
    + exists (u "μα"). split; [now left|]. exists (u "πρόβλη"). reflexivity.
  - apply (Noun (u "άνθρωπος") (map u ["άνθρωπος"; "ανθρώπου"])).
    exists (u "άνθρωπ"). reflexivity.
  - apply (Verb (u "αγαπάω")). exists (u "αγαπ"). reflexivity.
Defined.

Lemma get_greek_lexicon_propn_raises_witness :
  get_greek_lexicon ascii_lower remove_tonos_el
    [(u "Αθήνα", Inflected (u "PROPN") [(u "αθήνα", [u "Case=Nom"])])]
  = Raise KeyError.
Proof.
  apply (get_greek_lexicon_propn_raises ascii_lower remove_tonos_el
           _ (u "Αθήνα")
           (Inflected (u "PROPN") [(u "αθήνα", [u "Case=Nom"])])).
  - now left.
  - reflexivity.
Defined.

Example lexicon_unmatched_noun :
  get_greek_lexicon ascii_lower remove_tonos_el
    [(u "φως", Inflected (u "NOUN") [(u "φως", [u "Case=Nom"])]);
     (u "και", Bare (u "CCONJ"))]
  = Ok [u "και" ++ [TAB] ++ u "και" ++ [TAB] ++ u "cconj";
        u "φως" ++ [TAB] ++ u "φως" ++ [TAB] ++ u "noun"].
Proof. reflexivity. Qed.

(** * Further properties *)

(** ** store_in: the other branches *)

Lemma dict_mem_set (V : Type) (k k' : str) (v : V) (d : dict V) :
  dict_mem k d = true -> dict_mem k (dict_set k' v d) = true.
Proof.
  unfold dict_mem. intros H.
  destruct (str_eqb k k') eqn:E.
  - apply str_eqb_eq in E. subst k'. now rewrite dict_get_set_eq.
  - apply str_eqb_neq in E. now rewrite dict_get_set_neq.
Qed.

Lemma plus_not_inflected (pos : str) :
  contains_char PLUS pos = true -> in_list pos INFLECTED = false.
Proof.
  intros H. apply not_true_is_false. intros Hin.
  apply in_list_In in Hin.
  repeat (destruct Hin as [<-|Hin]; [discriminate H|]). destruct Hin.
Qed.

(** X1: a record with a POS of INFLECTED whose lemma is already bound to an
    inflected entry adds its surface form to the inflection map of that
    entry; the POS of the entry stays the one it was created with, the other
    forms and the other keys stay as they are. *)
Theorem store_in_accumulates (t : table) (word lemma pos ann p : str)
    (infl : dict (list str)) :
  dict_get lemma t = Some (Inflected p infl) ->
  in_list pos INFLECTED = true ->
  exists infl',
    dict_get lemma (store_in t word (Some lemma) pos ann)
      = Some (Inflected p infl')
    /\ dict_get word infl' = Some (split PIPE ann)
    /\ (forall w, w <> word -> dict_get w infl' = dict_get w infl)
    /\ (forall k, k <> lemma ->
          dict_get k (store_in t word (Some lemma) pos ann) = dict_get k t).
Proof.
  intros Hget Hinf. exists (dict_set word (split PIPE ann) infl).
  unfold store_in. rewrite Hget, Hinf. repeat split.
  - apply dict_get_set_eq.
  - apply dict_get_set_eq.
  - intros w Hw. now apply dict_get_set_neq.
  - intros k Hk. now apply dict_get_set_neq.
Qed.

Lemma store_in_accumulates_witness :
  dict_get (u "ο")
    (store_in [(u "ο", Inflected (u "DET") [(u "η", [u "Case=Nom"])])]
       (u "τον") (Some (u "ο")) (u "PRON") (u "Case=Acc"))
  = Some (Inflected (u "DET")
            [(u "η", [u "Case=Nom"]); (u "τον", [u "Case=Acc"])]).
Proof.
  destruct (store_in_accumulates
              [(u "ο", Inflected (u "DET") [(u "η", [u "Case=Nom"])])]
              (u "τον") (u "ο") (u "PRON") (u "Case=Acc") (u "DET")
              [(u "η", [u "Case=Nom"])] eq_refl eq_refl)
    as (infl' & H & _).
  reflexivity.
Defined.

(** X2: for a lemma that is not yet a key, a POS with '+' binds the surface
    form to the contraction entry [{pos, annotations}], and a POS of INFLECTED
    binds the lemma to [{pos, inflections: {word: annotations}}]; no other
    key changes. *)
Theorem store_in_creates (t : table) (word lemma pos ann : str) :
  dict_get lemma t = None ->
  (contains_char PLUS pos = true ->
     dict_get word (store_in t word (Some lemma) pos ann)
       = Some (Contraction pos (split PIPE ann))
     /\ forall k, k <> word ->
          dict_get k (store_in t word (Some lemma) pos ann) = dict_get k t)
  /\ (in_list pos INFLECTED = true ->
        dict_get lemma (store_in t word (Some lemma) pos ann)
          = Some (Inflected pos [(word, split PIPE ann)])
        /\ forall k, k <> lemma ->
             dict_get k (store_in t word (Some lemma) pos ann) = dict_get k t).
Proof.
  intros Hnew.
  assert (Habs : in_table (Some lemma) t = false)
    by (unfold in_table, dict_mem; now rewrite Hnew).
  rewrite (store_in_absent t word (Some lemma) pos ann Habs).
  split.
  - intros Hplus. rewrite Hplus. split.
    + apply dict_get_set_eq.
    + intros k Hk. now apply dict_get_set_neq.
  - intros Hinf.
    destruct (contains_char PLUS pos) eqn:Hplus.
    + apply plus_not_inflected in Hplus. congruence.
    + rewrite Hinf. split.
      * apply dict_get_set_eq.
      * intros k Hk. now apply dict_get_set_neq.
Qed.

Lemma store_in_creates_witness :
  dict_get (u "στο")
    (store_in [] (u "στο") (Some (u "_")) (u "ADP+DET") (u "Case=Acc"))
  = Some (Contraction (u "ADP+DET") [u "Case=Acc"])
  /\ dict_get (u "ο")
       (store_in [] (u "η") (Some (u "ο")) (u "DET") (u "Case=Nom"))
     = Some (Inflected (u "DET") [(u "η", [u "Case=Nom"])]).
Proof.
  destruct (store_in_creates [] (u "στο") (u "_") (u "ADP+DET") (u "Case=Acc")
              eq_refl) as [H1 _].
  destruct (store_in_creates [] (u "η") (u "ο") (u "DET") (u "Case=Nom")
              eq_refl) as [_ H2].
  split; [apply H1 | apply H2]; reflexivity.
Defined.

(** X3: a contraction record (a POS with '+') whose lemma is already a key
    of the table, as "_" is once a marker line was stored under it, is
    dropped: the table comes back unchanged. *)
Theorem store_in_contraction_dropped (t : table) (word lemma pos ann : str) :
  in_table (Some lemma) t = true ->
  contains_char PLUS pos = true ->
  store_in t word (Some lemma) pos ann = t.
Proof.
  intros Hin Hplus. unfold store_in, in_table, dict_mem in *.
  destruct (dict_get lemma t); [|discriminate].
  now rewrite (plus_not_inflected pos Hplus).
Qed.

Lemma store_in_contraction_dropped_witness :
  let t := [(u "_", Inflected (u "DET") [(u "στο", [u "Case=Acc"])])] in
  store_in t (u "στη") (Some (u "_")) (u "ADP+DET") (u "Case=Acc") = t.
Proof.
  intros t. apply store_in_contraction_dropped; reflexivity.
Defined.

(** X4: [store_in] never removes a key, and the only keys whose binding
    can change are the surface form and the lemma of the record. *)
Theorem store_in_frame (t : table) (word lemma pos ann : str) :
  (forall k, dict_mem k t = true ->
     dict_mem k (store_in t word (Some lemma) pos ann) = true)
  /\ (forall k, k <> word -> k <> lemma ->
        dict_get k (store_in t word (Some lemma) pos ann) = dict_get k t).
Proof.
  unfold store_in.
  destruct (dict_get lemma t) as [e|];
    destruct (contains_char PLUS pos); destruct (in_list pos INFLECTED);
    try destruct e; split; intros k; intros;
    try reflexivity; try assumption;
    try (now apply dict_mem_set); now apply dict_get_set_neq.
Qed.

(** ** update_contraction: when it returns *)

(** One turn on an existing next line: more than five fields raise, any
    other line lets the loop go on. *)
Lemma contraction_loop_turn (n : nat) (lines : list str) (j : nat)
    (pos anns : list str) :
  S j < length lines ->
  (5 < length (split TAB (strip (nth (S j) lines [])))
   /\ contraction_loop (S n) lines j pos anns = Raise ValueError)
  \/ (length (split TAB (strip (nth (S j) lines []))) <= 5
      /\ exists pos' anns',
           contraction_loop (S n) lines j pos anns
           = contraction_loop n lines (S j) pos' anns').
Proof.
  intros Hlt. rewrite contraction_loop_S.
  destruct (Nat.leb_spec (length lines) j) as [?|_]; [lia|].
  destruct (nth_error lines (S j)) as [raw|] eqn:Hnth.
  2: { apply nth_error_None in Hnth. lia. }
  rewrite (index_ok _ _ _ _ Hnth). cbn [bind].
  rewrite (nth_error_nth lines (S j) ([] : str) Hnth).
  destruct (strip raw) as [|ch line'] eqn:Hstrip.
  - right. split; [simpl; lia | eauto].
  - cbv zeta.
    destruct (Nat.ltb_spec (length (split TAB (ch :: line'))) 5) as [H5|H5].
    + right. split; [lia | eauto].
    + destruct (split TAB (ch :: line')) as [|? [|? [|? [|? [|? [|? ?]]]]]];
        cbn [length] in *; try lia.
      * right. split; [lia | eauto].
      * left. split; [lia | reflexivity].
Qed.

Lemma contraction_loop_at_end (n : nat) (lines : list str) (j : nat)
    (pos anns : list str) :
  S j = length lines ->
  contraction_loop (S n) lines j pos anns = Raise IndexError.
Proof.
  intros Hj. rewrite contraction_loop_S.
  destruct (Nat.leb_spec (length lines) j) as [?|_]; [lia|].
  rewrite index_out_of_range by lia. reflexivity.
Qed.

(** X5: [update_contraction] returns a pair exactly in two cases: [i] is
    already past the end of [lines] (the result is then the pair of empty
    strings), or two lines follow position [i] and each of them, stripped,
    has at most five tab-fields.  In every other case it raises. *)
Theorem update_contraction_returns_iff (lines : list str) (i : nat) :
  (exists r, update_contraction lines i = Ok r)
  <-> length lines <= i
      \/ (i + 2 < length lines
          /\ length (split TAB (strip (nth (S i) lines []))) <= 5
          /\ length (split TAB (strip (nth (S (S i)) lines []))) <= 5).
Proof.
  unfold update_contraction. split.
  - intros [r Hr].
    destruct (Nat.le_gt_cases (length lines) i) as [?|Hi]; [now left|right].
    destruct (Nat.eq_dec (S i) (length lines)) as [E|NE].
    { rewrite (contraction_loop_at_end 1 lines i [] [] E) in Hr.
      discriminate. }
    destruct (contraction_loop_turn 1 lines i [] [] ltac:(lia))
      as [[_ R]|[L1 (p1 & a1 & R)]]; rewrite R in Hr; [discriminate|].
    destruct (Nat.eq_dec (S (S i)) (length lines)) as [E|NE'].
    { rewrite (contraction_loop_at_end 0 lines (S i) p1 a1 E) in Hr.
      discriminate. }
    destruct (contraction_loop_turn 0 lines (S i) p1 a1 ltac:(lia))
      as [[_ R']|[L2 _]]; [rewrite R' in Hr; discriminate|].
    repeat split; [lia | assumption | assumption].
  - intros [Hle|(Hlt & L1 & L2)].
    + rewrite contraction_loop_S.
      destruct (Nat.leb_spec (length lines) i) as [_|?]; [|lia].
      cbn [bind]. eauto.
    + destruct (contraction_loop_turn 1 lines i [] [] ltac:(lia))
        as [[? _]|[_ (p1 & a1 & ->)]]; [lia|].
      destruct (contraction_loop_turn 0 lines (S i) p1 a1 ltac:(lia))
        as [[? _]|[_ (p2 & a2 & ->)]]; [lia|].
      cbn [contraction_loop bind]. eauto.
Qed.

(** ** get_inflections as a fold *)

Lemma nth_middle_app (A : Type) (pre post : list A) (x d : A) :
  nth (length pre) (pre ++ x :: post) d = x.
Proof. induction pre; [reflexivity | assumption]. Qed.

(** One turn of the loop on a plain record. *)
Lemma inflections_loop_plain (fuel : nat) (pre post : list str) (line : str)
    (t : table) :
  plain_record line ->
  inflections_loop (S fuel) (pre ++ line :: post) t (length pre)
  = inflections_loop fuel (pre ++ line :: post) (store_record t line)
      (S (length pre)).
Proof.
  intros (word & lemma & pos & x & ann & Hs & Hl & Hp).
  cbn [inflections_loop].
  destruct (Nat.ltb_spec (length pre) (length (pre ++ line :: post)))
    as [_|H]; [|rewrite length_app in H; simpl in H; lia].
  rewrite nth_middle_app, Hs. cbn [length Nat.eqb negb update].
  apply str_eqb_neq in Hl, Hp. rewrite Hl, Hp. cbn [orb].
  unfold store_record. now rewrite Hs.
Qed.

Lemma inflections_loop_plain_run (mid : list str) :
  Forall plain_record mid ->
  forall fuel pre post t,
    inflections_loop (length mid + fuel) (pre ++ mid ++ post) t (length pre)
    = inflections_loop fuel (pre ++ mid ++ post) (fold_left store_record mid t)
        (length pre + length mid).
Proof.
  induction 1 as [|line mid Hline Hmid IH]; intros fuel pre post t.
  - cbn [length fold_left app Nat.add]. now rewrite Nat.add_0_r.
  - cbn [length fold_left app Nat.add].
    rewrite inflections_loop_plain by assumption.
    replace (pre ++ line :: mid ++ post) with ((pre ++ [line]) ++ mid ++ post)
      by (now rewrite <- app_assoc).
    replace (S (length pre)) with (length (pre ++ [line]))
      by (rewrite length_app; simpl; lia).
    rewrite IH. f_equal. rewrite length_app. simpl. lia.
Qed.

(** X6: on a corpus in which every line has five fields and none is a
    contraction marker, [get_inflections] ends after one turn per line,
    raises nothing, and its table is the left fold of [store_in] over the
    records, in corpus order; more turns than needed change nothing. *)
Theorem get_inflections_plain_corpus (lines : list str) (fuel : nat) :
  Forall plain_record lines ->
  length lines < fuel ->
  get_inflections fuel lines = Some (Ok (fold_left store_record lines [])).
Proof.
  intros Hall Hfuel. unfold get_inflections.
  replace fuel with (length lines + S (fuel - S (length lines))) by lia.
  pose proof (inflections_loop_plain_run lines Hall
                (S (fuel - S (length lines))) [] [] []) as H.
  cbn [app length Nat.add] in H. rewrite app_nil_r in H. rewrite H.
  cbn [inflections_loop].
  destruct (Nat.ltb_spec (length lines) (length lines)); [lia | reflexivity].
Qed.

Lemma get_inflections_plain_corpus_witness :
  get_inflections 3
    [tsv ["με"; "με"; "ADP"; "ADP"; "_"];
     tsv ["η"; "ο"; "DET"; "DET"; "Case=Nom"]]
  = Some (Ok [(u "με", Bare (u "ADP"));
              (u "ο", Inflected (u "DET") [(u "η", [u "Case=Nom"])])]).
Proof.
  apply (get_inflections_plain_corpus
           [tsv ["με"; "με"; "ADP"; "ADP"; "_"];
            tsv ["η"; "ο"; "DET"; "DET"; "Case=Nom"]] 3).
  - repeat constructor.
    + exists (u "με"), (u "με"), (u "ADP"), (u "ADP"), (u "_").
      repeat split; discriminate.
    + exists (u "η"), (u "ο"), (u "DET"), (u "DET"), (u "Case=Nom").
      repeat split; discriminate.
  - simpl; lia.
Defined.

(** X7: a corpus of plain records that ends with a contraction marker (a
    line of five fields with lemma "_" or POS "_") makes [get_inflections]
    raise [IndexError] at that last line, after the records before it were
    stored. *)
Theorem get_inflections_trailing_marker (body : list str) (marker : str)
    (word lemma pos x ann : str) (fuel : nat) :
  Forall plain_record body ->
  split TAB (strip marker) = [word; lemma; pos; x; ann] ->
  lemma = u "_" \/ pos = u "_" ->
  length body < fuel ->
  get_inflections fuel (body ++ [marker]) = Some (Raise IndexError).
Proof.
  intros Hall Hs Hmark Hfuel. unfold get_inflections.
  replace fuel with (length body + S (fuel - S (length body))) by lia.
  pose proof (inflections_loop_plain_run body Hall
                (S (fuel - S (length body))) [] [marker] []) as H.
  cbn [app length Nat.add] in H. rewrite H.
  cbn [inflections_loop].
  destruct (Nat.ltb_spec (length body) (length (body ++ [marker])))
    as [_|H']; [|rewrite length_app in H'; simpl in H'; lia].
  rewrite nth_middle_app, Hs. cbn [length Nat.eqb negb update].
  assert (M : str_eqb lemma (u "_") || str_eqb pos (u "_") = true).
  { apply orb_true_iff.
    destruct Hmark as [-> | ->]; [left | right]; apply str_eqb_refl. }
  rewrite M. unfold update_contraction.
  rewrite (contraction_loop_at_end 1 (body ++ [marker]) (length body) [] [])
    by (rewrite length_app; simpl; lia).
  reflexivity.
Qed.

Lemma get_inflections_trailing_marker_witness :
  get_inflections 3
    [tsv ["με"; "με"; "ADP"; "ADP"; "_"]; tsv ["στο"; "_"; "_"; "_"; "_"]]
  = Some (Raise IndexError).
Proof.
  apply (get_inflections_trailing_marker
           [tsv ["με"; "με"; "ADP"; "ADP"; "_"]]
           (tsv ["στο"; "_"; "_"; "_"; "_"])
           (u "στο") (u "_") (u "_") (u "_") (u "_") 3).
  - repeat constructor.
    exists (u "με"), (u "με"), (u "ADP"), (u "ADP"), (u "_").
    repeat split; discriminate.
  - reflexivity.
  - now left.
  - simpl; lia.
Defined.

(** ** from_conllu: which lines are kept, and what is written for them *)

Lemma split_max_0 (sep : char) (s : str) : split_max sep 0 s = [s].
Proof. now destruct s. Qed.

Lemma split_app_sep (sep : char) (x s : str) :
  ~ In sep x -> split sep (x ++ sep :: s) = x :: split sep s.
Proof.
  induction x as [|c x IH]; intros Hx; cbn [app split].
  - now rewrite N.eqb_refl.
  - destruct (N.eqb_spec c sep) as [->|_]; [elim Hx; now left|].
    rewrite IH; [reflexivity|]. intros H. apply Hx. now right.
Qed.

Lemma split_max_app_sep (sep : char) (m : nat) (x s : str) :
  ~ In sep x -> split_max sep (S m) (x ++ sep :: s) = x :: split_max sep m s.
Proof.
  induction x as [|c x IH]; intros Hx.
  - cbn [app split_max]. now rewrite N.eqb_refl.
  - change (split_max sep (S m) ((c :: x) ++ sep :: s))
      with (if (c =? sep)%N then [] :: split_max sep m (x ++ sep :: s)
            else match split_max sep (S m) (x ++ sep :: s) with
                 | [] => [[c]]
                 | f :: fs => (c :: f) :: fs
                 end).
    destruct (N.eqb_spec c sep) as [->|_]; [elim Hx; now left|].
    rewrite IH; [reflexivity|]. intros H. apply Hx. now right.
Qed.

Lemma split_max_no_sep (sep : char) (m : nat) (s : str) :
  ~ In sep s -> split_max sep m s = [s].
Proof.
  destruct m as [|m]; [intros _; apply split_max_0|].
  induction s as [|c s IH]; intros Hs; [reflexivity|].
  change (split_max sep (S m) (c :: s))
    with (if (c =? sep)%N then [] :: split_max sep m s
          else match split_max sep (S m) s with
               | [] => [[c]]
               | f :: fs => (c :: f) :: fs
               end).
  destruct (N.eqb_spec c sep) as [->|_]; [elim Hs; now left|].
  rewrite IH; [reflexivity|]. intros H. apply Hs. now right.
Qed.

(** The first cut of a string: none if it has no separator. *)
Lemma first_cut (sep : char) (s : str) :
  ~ In sep s
  \/ exists a b, s = a ++ sep :: b /\ ~ In sep a.
Proof.
  induction s as [|c s IH]; [left; intros []|].
  destruct (N.eqb_spec c sep) as [->|Hc].
  - right. exists [], s. split; [reflexivity | intros []].
  - destruct IH as [Hs|(a & b & -> & Ha)].
    + left. intros [E|H]; [now apply Hc | now apply Hs].
    + right. exists (c :: a), b. split; [reflexivity|].
      intros [E|H]; [now apply Hc | now apply Ha].
Qed.

Lemma startswith_hash_app (a s : str) :
  startswith (a ++ TAB :: s) [HASH] = startswith a [HASH].
Proof.
  destruct a as [|c a]; [reflexivity|].
  cbn [app startswith]. destruct (HASH =? c)%N; [|reflexivity].
  cbn [andb]. now destruct a.
Qed.

(** X8: [from_conllu] leaves a line out exactly when it starts with '#',
    or has no tab, or one of its fields after the first is an ignore marker,
    or its second field contains a decimal digit.  The number of fields is
    not looked at: every other line gives one line of output. *)
Theorem conllu_line_none_iff (lower : str -> str) (isdecimal : char -> bool)
    (line : str) :
  conllu_line lower isdecimal line = None
  <-> startswith line [HASH] = true
      \/ ~ In TAB line
      \/ (exists f, In f (tl (split TAB line)) /\ In f TO_IGNORE)
      \/ existsb isdecimal (nth 1 (split TAB line) []) = true.
Proof.
  unfold conllu_line.
  destruct (startswith line [HASH]) eqn:Hhash; [split; auto|].
  destruct (first_cut TAB line) as [Hno|(a & b & -> & Ha)].
  - rewrite (split_max_no_sep TAB 1 line Hno). split; auto.
  - rewrite (split_max_app_sep TAB 0 a b Ha), split_max_0.
    rewrite (split_app_sep TAB a b Ha). cbn [tl nth].
    replace (nth 0 (split TAB b) []) with (hd [] (split TAB b))
      by (now destruct (split TAB b)).
    destruct (existsb (fun n => in_list n TO_IGNORE) (split TAB b)) eqn:Hig;
      cbn [orb].
    + split; [intros _|reflexivity]. right. right. left.
      apply existsb_exists in Hig. destruct Hig as (f & Hf & Hin).
      exists f. split; [assumption | now apply in_list_In].
    + destruct (existsb isdecimal (hd [] (split TAB b))) eqn:Hdig.
      * split; auto.
      * split; [discriminate|].
        intros [H|[H|[(f & Hf & Hin)|H]]]; try discriminate.
        -- elim H. apply in_or_app. right. now left.
        -- apply in_list_In in Hin.
           assert (existsb (fun n => in_list n TO_IGNORE) (split TAB b)
                   = true) by (apply existsb_exists; eauto).
           congruence.
Qed.

(** X9: for a token line of at least seven columns that is kept, the line
    written holds the form, lowercased, then the lemma, the two POS columns
    and the features, tab-separated and newline-terminated; the columns
    after the features are dropped. *)
Theorem conllu_line_token (lower : str -> str) (isdecimal : char -> bool)
    (id form lemma upos xpos feats rest : str) :
  Forall no_tab [id; form; lemma; upos; xpos; feats] ->
  startswith id [HASH] = false ->
  (forall f, In f (form :: lemma :: upos :: xpos :: feats :: split TAB rest) ->
     ~ In f TO_IGNORE) ->
  existsb isdecimal form = false ->
  conllu_line lower isdecimal
    (id ++ TAB :: form ++ TAB :: lemma ++ TAB :: upos ++ TAB :: xpos
        ++ TAB :: feats ++ TAB :: rest)
  = Some ((lower form ++ [TAB]) ++ join [TAB] [lemma; upos; xpos; feats]
          ++ [NL]).
Proof.
  intros Hcols Hhash Hkeep Hdig.
  repeat match goal with
         | H : Forall _ (_ :: _) |- _ => inversion H; clear H; subst
         end.
  unfold no_tab in *.
  unfold conllu_line. rewrite startswith_hash_app, Hhash.
  rewrite (split_max_app_sep TAB 0) by assumption. rewrite split_max_0.
  rewrite !(split_app_sep TAB) by assumption. cbn [hd].
  replace (existsb (fun n => in_list n TO_IGNORE)
             (form :: lemma :: upos :: xpos :: feats :: split TAB rest))
    with false.
  - rewrite Hdig. cbn [orb].
    rewrite !(split_max_app_sep TAB) by assumption. rewrite split_max_0.
    reflexivity.
  - symmetry. apply not_true_is_false. intros H.
    apply existsb_exists in H. destruct H as (f & Hf & Hin).
    apply in_list_In in Hin. exact (Hkeep f Hf Hin).
Qed.

Lemma conllu_line_token_witness :
  conllu_line ascii_lower ascii_decimal
    (tsv ["1"; "H"; "o"; "DET"; "DET"; "Case=Nom"; "2"; "det"; "_"; "_"])
  = Some (u "h" ++ [TAB] ++ u "o" ++ [TAB] ++ u "DET" ++ [TAB] ++ u "DET"
          ++ [TAB] ++ u "Case=Nom" ++ [NL]).
Proof.
  apply (conllu_line_token ascii_lower ascii_decimal
           (u "1") (u "H") (u "o") (u "DET") (u "DET") (u "Case=Nom")
           (u "2" ++ [TAB] ++ u "det" ++ [TAB] ++ u "_" ++ [TAB] ++ u "_"
              ++ [NL])).
  - repeat constructor; unfold no_tab; vm_compute; intuition discriminate.
  - reflexivity.
  - intros f Hf Hig. vm_compute in Hf, Hig.
    repeat (destruct Hf as [<-|Hf];
            [repeat (destruct Hig as [E|Hig]; [discriminate E|]);
             destruct Hig|]).
    destruct Hf.
  - reflexivity.
Defined.

(** ** get_stem: the suffix branch *)

Lemma prefix_shorter (a b l : str) :
  prefix a l -> prefix b l -> length a <= length b -> prefix a b.
Proof.
  revert b l; induction a as [|x a IH]; intros b l Ha Hb Hlen;
    [apply prefix_nil|].
  destruct b as [|y b]; [simpl in Hlen; lia|].
  destruct l as [|z l]; [apply prefix_of_nil in Ha; discriminate|].
  apply prefix_cons in Ha, Hb. destruct Ha as [-> Ha], Hb as [-> Hb].
  apply prefix_cons. split; [reflexivity|].
  apply (IH b l); auto. simpl in Hlen. lia.
Qed.

Lemma suffix_rev (e s : str) : suffix e s <-> prefix (rev e) (rev s).
Proof.
  rewrite <- endswith_suffix. unfold endswith. apply startswith_prefix.
Qed.

Lemma suffix_shorter (a b l : str) :
  suffix a l -> suffix b l -> length a <= length b -> suffix a b.
Proof.
  rewrite !suffix_rev. intros Ha Hb Hlen.
  apply (prefix_shorter _ _ (rev l)); auto. now rewrite !length_rev.
Qed.

Lemma re_sub_end_app (s l : str) :
  suffix s l -> re_sub_end s l ++ s = l /\ prefix (re_sub_end s l) l.
Proof.
  intros Hs. unfold re_sub_end.
  rewrite (proj2 (endswith_suffix l s) Hs).
  destruct Hs as [r ->]. rewrite length_app, Nat.add_sub.
  rewrite firstn_app, firstn_all, Nat.sub_diag. cbn [firstn].
  rewrite app_nil_r. split; [reflexivity | now exists s].
Qed.

Lemma find_first (A : Type) (f : A -> bool) (pre post : list A) (x : A) :
  (forall y, In y pre -> f y = false) -> f x = true ->
  find f (pre ++ x :: post) = Some x.
Proof.
  intros Hpre Hx. induction pre as [|y pre IH]; cbn [app find].
  - now rewrite Hx.
  - rewrite (Hpre y) by (now left). apply IH.
    intros z Hz. apply Hpre. now right.
Qed.

Lemma longest_first_find (endings : list str) (l s s' : str) :
  longest_first endings = true ->
  find (endswith l) endings = Some s ->
  In s' endings -> suffix s' l ->
  length s' <= length s.
Proof.
  induction endings as [|a r IH]; intros Hord Hfind Hin Hs'; [destruct Hin|].
  cbn [longest_first] in Hord. apply andb_true_iff in Hord.
  destruct Hord as [Ha Hr]. cbn [find] in Hfind.
  destruct (endswith l a) eqn:Ea.
  - injection Hfind as <-. destruct Hin as [<-|Hin]; [lia|].
    rewrite forallb_forall in Ha. specialize (Ha s' Hin).
    apply orb_true_iff in Ha. destruct Ha as [Hle|Hno].
    + now apply Nat.leb_le.
    + destruct (Nat.le_gt_cases (length s') (length a)) as [?|Hgt];
        [assumption|].
      apply endswith_suffix in Ea.
      assert (Hsuf : suffix a s') by (apply (suffix_shorter a s' l); auto; lia).
      apply endswith_suffix in Hsuf. rewrite Hsuf in Hno. discriminate.
  - destruct Hin as [<-|Hin].
    + apply endswith_suffix in Hs'. congruence.
    + now apply IH.
Qed.

Section StemMore.

Variable remove_tonos : str -> str.

(** X10: in the suffix branch (common prefix shorter than 4, or fewer than
    2 forms), when [s] is the first ending of LEMMA_SUFFIXES that ends the
    normalised lemma, the stem is the normalised lemma without that ending:
    stem and ending put together give the normalised lemma back. *)
Theorem get_stem_strips_suffix (lemma : str) (words : list str) (p s : str)
    (pre post : list str) :
  longest_common_prefix p (remove_tonos lemma :: map remove_tonos words) ->
  length p < 4 \/ length words < 2 ->
  LEMMA_SUFFIXES = pre ++ s :: post ->
  (forall s', In s' pre -> ~ suffix s' (remove_tonos lemma)) ->
  suffix s (remove_tonos lemma) ->
  exists stem,
    get_stem remove_tonos lemma words = Ok stem
    /\ stem ++ s = remove_tonos lemma.
Proof.
  intros Hp Hbranch Hsplit Hpre Hs.
  destruct (get_stem_eq remove_tonos lemma words) as (p' & Hp' & ->).
  rewrite (longest_common_prefix_unique _ _ _ Hp' Hp).
  replace ((length p <? 4) || (length words <? 2)) with true.
  - rewrite Hsplit.
    rewrite (find_first _ (endswith (remove_tonos lemma)) pre post s).
    + exists (re_sub_end s (remove_tonos lemma)).
      split; [reflexivity | now apply re_sub_end_app].
    + intros y Hy. apply not_true_is_false. intros E.
      apply endswith_suffix in E. exact (Hpre y Hy E).
    + now apply endswith_suffix.
  - symmetry. apply orb_true_iff.
    destruct Hbranch; [left | right]; now apply Nat.ltb_lt.
Qed.

(** X11: the ending that [get_stem] strips, the first of LEMMA_SUFFIXES to
    end the normalised lemma, is also the longest one that ends it: in the
    list no ending comes after a shorter ending that it contains at its
    end. *)
Theorem lemma_suffix_first_is_longest (l s s' : str) :
  find (endswith l) LEMMA_SUFFIXES = Some s ->
  In s' LEMMA_SUFFIXES ->
  suffix s' l ->
  length s' <= length s.
Proof. apply longest_first_find. reflexivity. Qed.

(** X12: [get_stem] raises nothing, and the stem it returns is always a
    prefix of the normalised lemma. *)
Theorem get_stem_prefix_of_lemma (lemma : str) (words : list str) :
  exists stem,
    get_stem remove_tonos lemma words = Ok stem
    /\ prefix stem (remove_tonos lemma).
Proof.
  destruct (get_stem_eq remove_tonos lemma words) as (p & [Hall _] & ->).
  assert (Hp : prefix p (remove_tonos lemma)) by (now inversion Hall).
  destruct ((length p <? 4) || (length words <? 2)); [|eauto].
  destruct (find (endswith (remove_tonos lemma)) LEMMA_SUFFIXES) as [s|] eqn:E;
    [|eauto].
  apply find_some in E. destruct E as [_ E]. apply endswith_suffix in E.
  eexists. split; [reflexivity | now apply re_sub_end_app].
Qed.

(** X13: the stem does not depend on the order in which the surface forms
    were recorded. *)
Theorem get_stem_permutation (lemma : str) (words words' : list str) :
  Permutation words words' ->
  get_stem remove_tonos lemma words = get_stem remove_tonos lemma words'.
Proof.
  intros Hperm.
  destruct (get_stem_eq remove_tonos lemma words) as (p & Hp & ->).
  destruct (get_stem_eq remove_tonos lemma words') as (p' & Hp' & ->).
  assert (E : p' = p).
  { apply (longest_common_prefix_unique _ _ _ Hp').
    destruct Hp as [Hall Hmax]. split.
    - inversion Hall; subst. constructor; [assumption|].
      apply (Permutation_Forall (Permutation_map remove_tonos Hperm)).
      assumption.
    - intros q Hq. apply Hmax. inversion Hq; subst.
      constructor; [assumption|].
      apply (Permutation_Forall
               (Permutation_map remove_tonos (Permutation_sym Hperm))).
      assumption. }
  rewrite E, (Permutation_length Hperm). reflexivity.
Qed.

End StemMore.

Lemma get_stem_strips_suffix_witness :
  exists stem,
    get_stem remove_tonos_el (u "γράφω") [u "γράφω"] = Ok stem
    /\ stem ++ u "ω" = u "γραφω".
Proof.
  apply (get_stem_strips_suffix remove_tonos_el (u "γράφω") [u "γράφω"]
           (u "γραφω") (u "ω") (removelast LEMMA_SUFFIXES) []).
  - apply commonprefix_lcp. reflexivity.
  - right. simpl; lia.
  - reflexivity.
  - intros s' Hs' Hsuf. apply endswith_suffix in Hsuf.
    vm_compute in Hs'.
    repeat (destruct Hs' as [<-|Hs']; [discriminate Hsuf|]). destruct Hs'.
  - exists (u "γραφ"). reflexivity.
Defined.

Lemma lemma_suffix_first_is_longest_witness :
  length (u "α") <= length (u "μα").
Proof.
  apply (lemma_suffix_first_is_longest (u "προβλημα") (u "μα") (u "α")).
  - reflexivity.
  - vm_compute. tauto.
  - exists (u "προβλημ"). reflexivity.
Defined.

Lemma get_stem_permutation_witness :
  get_stem remove_tonos_el (u "καλός") (map u ["καλού"; "καλούς"])
  = get_stem remove_tonos_el (u "καλός") (map u ["καλούς"; "καλού"]).
Proof.
  apply get_stem_permutation. apply perm_swap.
Defined.

(** ** get_class and get_greek_lexicon: errors, rows and order *)

Lemma dict_get_none_iff (V : Type) (k : str) (d : dict V) :
  dict_get k d = None <-> ~ In k (dict_keys d).
Proof.
  induction d as [|[k' v] d IH]; cbn [dict_get dict_keys map fst In].
  - tauto.
  - destruct (str_eqb k k') eqn:E.
    + apply str_eqb_eq in E. subst. split; [discriminate | tauto].
    + apply str_eqb_neq in E. rewrite IH. unfold dict_keys.
      split; [intros H [H'|H']; auto | tauto].
Qed.

(** X14: [get_class] raises [KeyError] exactly for a POS other than ADJ,
    VERB, NOUN and PRON; for these four it returns, whatever the lemma. *)
Theorem get_class_keyerror_iff (lemma pos : str) :
  get_class lemma pos = Raise KeyError
  <-> ~ In pos (map u ["ADJ"; "VERB"; "NOUN"; "PRON"]).
Proof.
  change (map u ["ADJ"; "VERB"; "NOUN"; "PRON"]) with (dict_keys CLASSES).
  rewrite <- dict_get_none_iff. unfold get_class.
  destruct (dict_get pos CLASSES) as [classes|]; [|tauto].
  split; [|discriminate].
  destruct (first_class lemma classes) as [[tag ?]|]; [discriminate|].
  destruct (str_eqb pos (u "VERB")); discriminate.
Qed.

Section LexiconMore.

Variable lower : str -> str.
Variable remove_tonos : str -> str.
Hypothesis lower_ascii : forall s, is_ascii s = true -> lower s = ascii_lower s.

(** X15: a VERB lemma that ends in none of the endings of VERB_CLASSES is
    not sent to the fallback: it keeps the computed stem (not the raw lemma)
    and gets the tag "verb-", the lowercased POS followed by a hyphen and an
    empty class. *)
Theorem analyze_inflections_verb_unmatched (lemma : str) (words : list str) :
  (forall c e, In c VERB_CLASSES -> In e (snd c) -> ~ suffix e lemma) ->
  exists stem,
    get_stem remove_tonos lemma words = Ok stem
    /\ analyze_inflections lower remove_tonos lemma words (u "VERB")
       = Ok (stem, u "verb-").
Proof.
  intros Hnone.
  destruct (get_stem_total remove_tonos lemma words) as [stem Hstem].
  exists stem. split; [exact Hstem|].
  unfold analyze_inflections. rewrite Hstem. cbn [bind].
  assert (E : get_class lemma (u "VERB") = Ok (Some (u ""))).
  { unfold get_class.
    change (dict_get (u "VERB") CLASSES) with (Some VERB_CLASSES).
    cbv beta iota.
    replace (first_class lemma VERB_CLASSES) with (@None (str * list str));
      [reflexivity|].
    symmetry. apply find_none_iff. intros c Hc.
    apply not_true_is_false. intros Hex.
    apply existsb_exists in Hex. destruct Hex as (e & He & Hend).
    apply endswith_suffix in Hend. exact (Hnone c e Hc He Hend). }
  rewrite E. cbn [bind]. rewrite lower_ascii by reflexivity. reflexivity.
Qed.

Lemma lexicon_row_ok (lemma : str) (info : entry) :
  entry_pos info <> u "PROPN" ->
  exists row, lexicon_row lower remove_tonos lemma info = Ok row.
Proof.
  intros Hpos.
  destruct (lexicon_row_ok_or_keyerror lower remove_tonos lemma info)
    as [H|H]; [exact H|].
  exfalso. unfold lexicon_row, analyze_inflections in H.
  destruct (in_list (entry_pos info) TO_STEM) eqn:Hin; [|discriminate].
  cbn [negb] in H.
  destruct (get_stem_total remove_tonos lemma (entry_words info))
    as [stem Hstem].
  rewrite Hstem in H. cbn [bind] in H.
  apply in_list_In in Hin.
  destruct Hin as [E|[E|[E|[E|[E|[]]]]]]; rewrite <- E in *;
    try (now apply Hpos);
    unfold get_class in H;
    match type of H with
    | context [dict_get ?p CLASSES] =>
      match eval vm_compute in (dict_get p CLASSES) with
      | Some ?c => change (dict_get p CLASSES) with (Some c) in H
      end
    end;
    cbv beta iota in H;
    match type of H with
    | context [first_class lemma ?c] =>
      destruct (first_class lemma c) as [[? ?]|]
    end; try discriminate;
    match type of H with
    | context [str_eqb ?a ?b] => destruct (str_eqb a b)
    end; discriminate.
Qed.

Lemma sort_length (xs : list str) : length (sort xs) = length xs.
Proof.
  assert (Hins : forall x l, length (insert_sorted x l) = S (length l)).
  { intros x l. induction l as [|y l IH]; [reflexivity|].
    cbn [insert_sorted]. destruct (str_ltb x y); cbn [length]; now rewrite ?IH. }
  induction xs as [|x xs IH]; [reflexivity|].
  cbn [sort fold_right length]. fold (sort xs). now rewrite Hins, IH.
Qed.

(** X16: [get_greek_lexicon] returns its rows exactly when no entry of the
    table has the POS PROPN, and then there is one row per entry of the
    table, stemmable or not. *)
Theorem get_greek_lexicon_ok_iff (d : table) :
  ((exists rows, get_greek_lexicon lower remove_tonos d = Ok rows)
   <-> forall lemma info, In (lemma, info) d -> entry_pos info <> u "PROPN")
  /\ forall rows, get_greek_lexicon lower remove_tonos d = Ok rows ->
       length rows = length d.
Proof.
  unfold get_greek_lexicon.
  assert (Hrows :
    ((exists rows, lexicon_rows lower remove_tonos d = Ok rows)
     <-> forall lemma info, In (lemma, info) d -> entry_pos info <> u "PROPN")
    /\ forall rows, lexicon_rows lower remove_tonos d = Ok rows ->
         length rows = length d).
  { induction d as [|[l i] d [IH1 IH2]].
    - split; [split; [intros _ ? ? [] | intros _; now exists []]|].
      now intros rows [= <-].
    - cbn [lexicon_rows]. split; [split|].
      + intros [rows Hr] lemma info [[= <- <-]|Hin] Hpos.
        * rewrite (lexicon_row_propn lower remove_tonos l i Hpos) in Hr.
          discriminate.
        * destruct (lexicon_row lower remove_tonos l i); [|discriminate].
          cbn [bind] in Hr.
          destruct (lexicon_rows lower remove_tonos d) as [rs|] eqn:E;
            [|discriminate].
          exact (proj1 IH1 (ex_intro _ rs eq_refl) lemma info Hin Hpos).
      + intros Hall.
        destruct (lexicon_row_ok l i) as [row ->];
          [apply (Hall l i); now left|].
        assert (Hd : exists rs, lexicon_rows lower remove_tonos d = Ok rs).
        { apply (proj2 IH1). intros lemma info Hin. apply (Hall lemma info).
          now right. }
        destruct Hd as [rs ->]. cbn [bind]. eauto.
      + intros rows Hr.
        destruct (lexicon_row lower remove_tonos l i); [|discriminate].
        cbn [bind] in Hr.
        destruct (lexicon_rows lower remove_tonos d) as [rs|] eqn:E;
          [|discriminate].
        cbn [bind] in Hr. injection Hr as <-.
        cbn [length]. now rewrite (IH2 rs eq_refl). }
  destruct Hrows as [H1 H2]. split.
  - rewrite <- H1. split.
    + intros [rows Hr].
      destruct (lexicon_rows lower remove_tonos d); [eauto | discriminate].
    + intros [rows ->]. cbn [bind]. eauto.
  - intros rows Hr.
    destruct (lexicon_rows lower remove_tonos d) as [rs|] eqn:E;
      [|discriminate].
    cbn [bind] in Hr. injection Hr as <-.
    rewrite sort_length. now apply H2.
Qed.

End LexiconMore.

Lemma insert_sorted_perm (x : str) (l : list str) :
  Permutation (x :: l) (insert_sorted x l).
Proof.
  induction l as [|y l IH]; [apply Permutation_refl|].
  cbn [insert_sorted]. destruct (str_ltb x y); [apply Permutation_refl|].
  apply (perm_trans (perm_swap y x l)). now apply perm_skip.
Qed.

Lemma insert_sorted_sorted (x : str) (l : list str) :
  Sorted str_le l -> Sorted str_le (insert_sorted x l).
Proof.
  induction l as [|y l IH]; intros Hs.
  - repeat constructor.
  - cbn [insert_sorted]. destruct (str_ltb x y) eqn:E.
    + constructor; [assumption|]. constructor.
      unfold str_le. now apply str_ltb_asym.
    + inversion Hs as [|? ? Hl Hhd]; subst.
      constructor; [now apply IH|].
      destruct l as [|z l]; cbn [insert_sorted].
      * constructor. exact E.
      * destruct (str_ltb x z); constructor; [exact E|].
        now inversion Hhd.
Qed.

(** X17: the rows handed over for writing are in ascending order of their
    code points, and are the rows of the table entries rearranged: none is
    lost, added or merged, equal rows included. *)
Theorem get_greek_lexicon_sorted (lower remove_tonos : str -> str)
    (d : table) (rows : list str) :
  get_greek_lexicon lower remove_tonos d = Ok rows ->
  Sorted str_le rows
  /\ exists lexicon,
       lexicon_rows lower remove_tonos d = Ok lexicon
       /\ Permutation lexicon rows.
Proof.
  unfold get_greek_lexicon. intros H.
  destruct (lexicon_rows lower remove_tonos d) as [lexicon|]; [|discriminate].
  cbn [bind] in H. injection H as <-. split.
  - induction lexicon as [|x l IH]; [constructor|].
    cbn [sort fold_right]. now apply insert_sorted_sorted.
  - exists lexicon. split; [reflexivity|].
    induction lexicon as [|x l IH]; [constructor|].
    cbn [sort fold_right].
    apply (perm_trans (perm_skip x IH)). apply insert_sorted_perm.
Qed.

Lemma analyze_inflections_verb_unmatched_witness :
  exists stem,
    get_stem remove_tonos_el (u "είμαι") [u "είναι"] = Ok stem
    /\ analyze_inflections ascii_lower remove_tonos_el (u "είμαι")
         [u "είναι"] (u "VERB")
       = Ok (stem, u "verb-").
Proof.
  apply (analyze_inflections_verb_unmatched ascii_lower remove_tonos_el
           (fun s _ => eq_refl) (u "είμαι") [u "είναι"]).
  intros c e Hc He Hsuf. apply endswith_suffix in Hsuf.
  vm_compute in Hc.
  repeat (destruct Hc as [<-|Hc];
          [vm_compute in He;
           repeat (destruct He as [<-|He]; [discriminate Hsuf|]);
           destruct He|]).
  destruct Hc.
Defined.

Lemma get_greek_lexicon_sorted_witness :
  Sorted str_le
    [u "και" ++ [TAB] ++ u "και" ++ [TAB] ++ u "cconj";
     u "φως" ++ [TAB] ++ u "φως" ++ [TAB] ++ u "noun"].
Proof.
  apply (get_greek_lexicon_sorted ascii_lower remove_tonos_el
           [(u "φως", Inflected (u "NOUN") [(u "φως", [u "Case=Nom"])]);
            (u "και", Bare (u "CCONJ"))]).
  reflexivity.
Defined.

(** ** lexc_builder.py: insert *)

Lemma insertion_point_none (pos : str) (lines : list str) (i : nat) :
  Lexc.insertion_point pos lines i = None
  <-> forall line, In line lines -> strip line <> u "LEXICON " ++ pos.
Proof.
  revert i; induction lines as [|l lines IH]; intros i;
    cbn [Lexc.insertion_point].
  - split; [intros _ ? [] | reflexivity].
  - destruct (str_eqb (strip l) (u "LEXICON " ++ pos)) eqn:E.
    + apply str_eqb_eq in E. split; [discriminate|].
      intros H. elim (H l (or_introl eq_refl) E).
    + apply str_eqb_neq in E. rewrite IH. split.
      * intros H line [<-|Hin]; auto.
      * intros H line Hin. apply H. now right.
Qed.

Lemma insertion_point_first (pos : str) (pre post : list str) (m : str)
    (i : nat) :
  (forall line, In line pre -> strip line <> u "LEXICON " ++ pos) ->
  strip m = u "LEXICON " ++ pos ->
  Lexc.insertion_point pos (pre ++ m :: post) i = Some (i + length pre + 1).
Proof.
  revert i; induction pre as [|l pre IH]; intros i Hpre Hm;
    cbn [app Lexc.insertion_point length].
  - rewrite Hm, str_eqb_refl. f_equal. lia.
  - rewrite (proj2 (str_eqb_neq _ _) (Hpre l (or_introl eq_refl))).
    rewrite IH; [f_equal; lia | | assumption].
    intros line Hin. apply Hpre. now right.
Qed.

(** X18: [insert] raises [ValueError] exactly when no line of the lexc
    file, stripped of surrounding white space, is "LEXICON <pos>". *)
Theorem insert_valueerror_iff (entries : list str) (pos : str)
    (lines : list str) :
  Lexc.insert entries pos lines = Raise ValueError
  <-> forall line, In line lines -> strip line <> u "LEXICON " ++ pos.
Proof.
  rewrite <- (insertion_point_none pos lines 0). unfold Lexc.insert.
  destruct (Lexc.insertion_point pos lines 0); split; congruence.
Qed.

(** X19: when a marker line exists, [insert] puts one block, the entries
    joined by newlines and newline-terminated, right after the first marker
    line; the lines of the file keep their order around it, and with no
    entry the block is an empty line. *)
Theorem insert_after_first_marker (entries : list str) (pos : str)
    (pre post : list str) (m : str) :
  (forall line, In line pre -> strip line <> u "LEXICON " ++ pos) ->
  strip m = u "LEXICON " ++ pos ->
  Lexc.insert entries pos (pre ++ m :: post)
    = Ok (pre ++ m :: (join [NL] entries ++ [NL]) :: post)
  /\ (entries = [] ->
        Lexc.insert entries pos (pre ++ m :: post)
        = Ok (pre ++ m :: [NL] :: post)).
Proof.
  intros Hpre Hm.
  assert (E : Lexc.insert entries pos (pre ++ m :: post)
              = Ok (pre ++ m :: (join [NL] entries ++ [NL]) :: post)).
  { unfold Lexc.insert.
    rewrite (insertion_point_first pos pre post m 0 Hpre Hm).
    replace (pre ++ m :: post) with ((pre ++ [m]) ++ post)
      by (now rewrite <- app_assoc).
    replace (0 + length pre + 1) with (length (pre ++ [m]))
      by (rewrite length_app; simpl; lia).
    rewrite firstn_app, firstn_all, Nat.sub_diag.
    rewrite skipn_app, skipn_all, Nat.sub_diag. cbn [firstn skipn app].
    rewrite app_nil_r, <- !app_assoc. reflexivity. }
  split; [exact E|]. intros ->. exact E.
Qed.

(** X20: [insert] is not idempotent: a second run on its own output finds
    the same marker line and puts its block before the block of the first
    run. *)
Theorem insert_twice (e1 e2 : list str) (pos : str) (pre post : list str)
    (m : str) :
  (forall line, In line pre -> strip line <> u "LEXICON " ++ pos) ->
  strip m = u "LEXICON " ++ pos ->
  (lines1 <- Lexc.insert e1 pos (pre ++ m :: post) ;;
   Lexc.insert e2 pos lines1)
  = Ok (pre ++ m :: (join [NL] e2 ++ [NL]) :: (join [NL] e1 ++ [NL]) :: post).
Proof.
  intros Hpre Hm.
  rewrite (proj1 (insert_after_first_marker e1 pos pre post m Hpre Hm)).
  cbn [bind].
  exact (proj1 (insert_after_first_marker e2 pos pre _ m Hpre Hm)).
Qed.

Lemma insert_after_first_marker_witness :
  Lexc.insert [u "άνθρωπος:ανθρωπ NounMascOs ;"; u "λόγος:λογ NounMascOs ;"]
    (u "Noun")
    ([u "Multichar_Symbols" ++ [NL]] ++ (u "LEXICON Noun" ++ [NL])
       :: [u "LEXICON Adj" ++ [NL]])
  = Ok ([u "Multichar_Symbols" ++ [NL]] ++ (u "LEXICON Noun" ++ [NL])
          :: (join [NL] [u "άνθρωπος:ανθρωπ NounMascOs ;";
                         u "λόγος:λογ NounMascOs ;"] ++ [NL])
          :: [u "LEXICON Adj" ++ [NL]]).
Proof.
  refine (proj1 (insert_after_first_marker _ _ _ _ _ _ _)).
  - intros line [<-|[]]. vm_compute. discriminate.
  - vm_compute. reflexivity.
Defined.

Lemma insert_twice_witness :
  (lines1 <- Lexc.insert [u "a:a NounFemA ;"] (u "Noun")
               ([] ++ (u "LEXICON Noun" ++ [NL]) :: []) ;;
   Lexc.insert [u "b:b NounFemA ;"] (u "Noun") lines1)
  = Ok ([] ++ (u "LEXICON Noun" ++ [NL])
          :: (join [NL] [u "b:b NounFemA ;"] ++ [NL])
          :: (join [NL] [u "a:a NounFemA ;"] ++ [NL]) :: []).
Proof.
  refine (insert_twice _ _ _ _ _ _ _ _).
  - intros line [].
  - vm_compute. reflexivity.
Defined.

(** ** lexc_builder.py: process_lexicon *)

Lemma dict_get_some_key (V : Type) (k : str) (v : V) (d : dict V) :
  dict_get k d = Some v -> In k (dict_keys d).
Proof.
  intros H. destruct (in_dec (list_eq_dec N.eq_dec) k (dict_keys d)) as [?|N];
    [assumption|].
  apply dict_get_none_iff in N. congruence.
Qed.

Lemma split_no_sep (sep : char) (s : str) :
  ~ In sep s -> split sep s = [s].
Proof.
  induction s as [|c s IH]; intros Hs; [reflexivity|].
  cbn [split]. destruct (N.eqb_spec c sep) as [->|_]; [elim Hs; now left|].
  rewrite IH; [reflexivity|]. intros H. apply Hs. now right.
Qed.

Lemma lstrip_head (c : char) (s : str) :
  is_space c = false -> lstrip (c :: s) = c :: s.
Proof. intros H. cbn [lstrip]. now rewrite H. Qed.

(** [strip] removes the newline of a line whose text is trimmed. *)
Lemma strip_trimmed_nl (l : str) :
  trimmed l -> strip (l ++ [NL]) = l.
Proof.
  destruct l as [|c l']; [intros []|]. intros [Hc Hlast].
  set (L := c :: l') in *.
  assert (E1 : lstrip (L ++ [NL]) = L ++ [NL]) by (apply lstrip_head, Hc).
  assert (E4 : rev L = last L c :: rev (removelast L)).
  { rewrite (app_removelast_last c (l := L)) at 1 by discriminate.
    apply rev_unit. }
  assert (E5 : lstrip (rev L) = rev L).
  { rewrite E4. apply lstrip_head, Hlast. }
  unfold strip. rewrite E1, rev_unit.
  change (lstrip (NL :: rev L)) with (lstrip (rev L)).
  rewrite E5. apply rev_involutive.
Qed.

Lemma last_default (b : str) (d d' : char) :
  b <> [] -> last b d = last b d'.
Proof.
  induction b as [|x b IH]; [congruence|]. intros _.
  destruct b as [|y b]; [reflexivity|].
  cbn [last] in *. apply IH. discriminate.
Qed.

Lemma last_app_ne (a b : str) (d d' : char) :
  b <> [] -> last (a ++ b) d = last b d'.
Proof.
  intros Hb. induction a as [|x a IH]; [now apply last_default|].
  cbn [app last]. destruct (a ++ b) eqn:E; [|exact IH].
  destruct a; [contradiction | discriminate].
Qed.

(** A row of the lexicon is trimmed when its lemma starts, and its tag ends,
    with no white space. *)
Lemma lexicon_line_trimmed (word stem tag : str) :
  is_space (hd TAB word) = false -> trimmed tag ->
  trimmed (lexicon_line word stem tag).
Proof.
  intros Hhd Htag. unfold lexicon_line.
  destruct word as [|c w]; [discriminate Hhd|].
  destruct tag as [|t tag']; [destruct Htag|].
  destruct Htag as [_ Hlast]. cbn [hd] in Hhd.
  cbn [app].
  assert (E : c :: w ++ TAB :: stem ++ TAB :: t :: tag'
              = (c :: w ++ TAB :: stem ++ [TAB]) ++ t :: tag').
  { cbn [app]. f_equal. rewrite <- app_assoc. cbn [app].
    now rewrite <- app_assoc. }
  split; [exact Hhd|].
  rewrite E, (last_app_ne _ (t :: tag') c t) by discriminate.
  exact Hlast.
Qed.

(** The keys of the three class tables of [lexc_builder] are trimmed and
    hold no tab. *)
Lemma lexc_key_trimmed (pos_classes : str * dict str) (tag : str) :
  In pos_classes Lexc.classes ->
  In tag (dict_keys (snd pos_classes)) ->
  trimmed tag /\ no_tab tag.
Proof.
  intros Hc Ht. vm_compute in Hc.
  repeat (destruct Hc as [<-|Hc];
          [vm_compute in Ht;
           repeat (destruct Ht as [<-|Ht];
                   [split; [now vm_compute
                           | unfold no_tab; vm_compute; intuition discriminate]|]);
           destruct Ht|]).
  destruct Hc.
Qed.

Lemma dict_get_in (V : Type) (k : str) (v : V) (d : dict V) :
  dict_get k d = Some v -> exists k', In (k', v) d /\ k' = k.
Proof.
  induction d as [|[k0 v0] d IH]; cbn [dict_get]; [discriminate|].
  destruct (str_eqb k k0) eqn:E.
  - intros [= ->]. apply str_eqb_eq in E. exists k0. split; [now left | auto].
  - intros H. destruct (IH H) as (k' & Hin & Hk). exists k'.
    split; [now right | assumption].
Qed.

(** X21: a lexicon row of hw1, [lemma<TAB>stem<TAB>tag] and a newline,
    whose tag has a class in the table of [pos], whose lemma and stem hold no
    tab and whose lemma starts with no white space, gives the one entry
    "lemma:stem Class ;". *)
Theorem process_lexicon_row (pos word stem tag class : str)
    (pos_classes : dict str) :
  dict_get pos Lexc.classes = Some pos_classes ->
  dict_get tag pos_classes = Some class ->
  no_tab word -> no_tab stem ->
  is_space (hd TAB word) = false ->
  Lexc.process_lexicon [lexicon_line word stem tag ++ [NL]] pos
  = Ok [word ++ u ":" ++ stem ++ u " " ++ class ++ u " ;"].
Proof.
  intros Hpos Htag Hw Hs Hhd.
  destruct (dict_get_in _ pos pos_classes Lexc.classes Hpos)
    as (pos' & Hin & _).
  destruct (lexc_key_trimmed (pos', pos_classes) tag Hin
              (dict_get_some_key _ tag class pos_classes Htag))
    as [Htrim Hnotab].
  unfold Lexc.process_lexicon. rewrite Hpos.
  cbn [Lexc.lexicon_entries]. unfold Lexc.lexicon_entry.
  assert (Hstrip : strip (lexicon_line word stem tag ++ [NL])
                   = lexicon_line word stem tag)
    by (now apply strip_trimmed_nl, lexicon_line_trimmed).
  rewrite Hstrip. unfold lexicon_line. cbn [app].
  rewrite (split_app_sep TAB word _ Hw), (split_app_sep TAB stem _ Hs).
  rewrite (split_no_sep TAB tag Hnotab).
  now rewrite Htag.
Qed.

Lemma process_lexicon_row_witness :
  Lexc.process_lexicon
    [lexicon_line (u "άνθρωπος") (u "ανθρωπο") (u "noun-masc-ος") ++ [NL]]
    (u "Noun")
  = Ok [u "άνθρωπος" ++ u ":" ++ u "ανθρωπο" ++ u " " ++ u "NounMascOs"
        ++ u " ;"].
Proof.
  refine (process_lexicon_row _ _ _ _ _ Lexc.noun_classes _ _ _ _ _).
  - vm_compute. reflexivity.
  - vm_compute. reflexivity.
  - unfold no_tab. vm_compute. intuition discriminate.
  - unfold no_tab. vm_compute. intuition discriminate.
  - vm_compute. reflexivity.
Defined.

(** X22: [process_lexicon] raises [KeyError] exactly for a category other
    than "Noun", "Adj" and "Verb" (the upper-case POS names of the lexicon,
    such as "NOUN", are not keys); otherwise it returns at most one entry
    per line of the lexicon. *)
Theorem process_lexicon_keyerror_iff (lexicon_lines : list str) (pos : str) :
  (Lexc.process_lexicon lexicon_lines pos = Raise KeyError
   <-> ~ In pos (map u ["Noun"; "Adj"; "Verb"]))
  /\ forall entries,
       Lexc.process_lexicon lexicon_lines pos = Ok entries ->
       length entries <= length lexicon_lines.
Proof.
  change (map u ["Noun"; "Adj"; "Verb"]) with (dict_keys Lexc.classes).
  rewrite <- dict_get_none_iff. unfold Lexc.process_lexicon.
  destruct (dict_get pos Lexc.classes) as [pc|].
  - split; [split; discriminate|]. intros entries [= <-].
    induction lexicon_lines as [|l ls IH]; [reflexivity|].
    cbn [Lexc.lexicon_entries length].
    destruct (Lexc.lexicon_entry pc l); cbn [length]; lia.
  - split; [tauto | discriminate].
Qed.

(** ** file.py: the path of the file written *)

Lemma substring_cons (old s : str) (c : char) :
  substring old s -> substring old (c :: s).
Proof. intros (a & b & ->). now exists (c :: a), b. Qed.

Lemma replace_go_no_occurrence (old new s : str) :
  ~ substring old s -> replace_go old new 0 s = s.
Proof.
  induction s as [|c r IH]; intros Hno; [reflexivity|].
  cbn [replace_go].
  destruct (startswith (c :: r) old) eqn:E.
  - apply startswith_prefix in E. destruct E as [b E].
    elim Hno. exists [], b. exact E.
  - f_equal. apply IH. intros H. apply Hno. now apply substring_cons.
Qed.

Lemma replace_go_skip (old new x rest : str) :
  replace_go old new (length x) (x ++ rest) = replace_go old new 0 rest.
Proof.
  induction x as [|c x IH]; [reflexivity|].
  cbn [app length replace_go]. exact IH.
Qed.

Lemma replace_go_0 (old new : str) (c : char) (r : str) :
  replace_go old new 0 (c :: r)
  = if startswith (c :: r) old
    then new ++ replace_go old new (length old - 1) r
    else c :: replace_go old new 0 r.
Proof. reflexivity. Qed.

(** The leftmost occurrence of [old], when it starts right after [base]. *)
Lemma replace_first (old new base rest : str) :
  old <> [] ->
  ~ substring old (base ++ removelast old) ->
  replace old new (base ++ old ++ rest)
  = base ++ new ++ replace old new rest.
Proof.
  intros Hold. unfold replace.
  induction base as [|c base IH]; intros Hno.
  - destruct old as [|o old']; [contradiction|].
    cbn [app]. rewrite replace_go_0.
    replace (startswith (o :: old' ++ rest) (o :: old')) with true
      by (symmetry; apply startswith_prefix; now exists rest).
    f_equal.
    replace (length (o :: old') - 1) with (length old')
      by (cbn [length]; lia).
    apply replace_go_skip.
  - cbn [app]. rewrite replace_go_0.
    destruct (startswith (c :: base ++ old ++ rest) old) eqn:E.
    + exfalso. apply Hno. apply startswith_prefix in E.
      pose proof (app_removelast_last c Hold) as Hsplit.
      assert (Hlen : length old = length (removelast old) + 1).
      { rewrite Hsplit at 1. now rewrite length_app. }
      assert (P : prefix old ((c :: base) ++ removelast old)).
      { apply (prefix_shorter _ _ (c :: base ++ old ++ rest) E).
        - exists ([last old c] ++ rest).
          rewrite Hsplit at 1. cbn [app]. f_equal.
          now rewrite <- !app_assoc.
        - rewrite length_app. cbn [length]. lia. }
      destruct P as [b P]. exists [], b. exact P.
    + f_equal. apply IH. intros H. apply Hno. cbn [app].
      now apply substring_cons.
Qed.

(** X23: when "tagged.txt" does not occur in the path given to [to_json],
    or "inflections.json" in the path given to [to_txt], the path written to
    is the path that was read: the output goes over the input file. *)
Theorem output_path_unchanged (filepath ext : str) :
  (~ substring (u "tagged.txt") filepath ->
     to_json_path ext filepath = filepath)
  /\ (~ substring (u "inflections.json") filepath ->
        to_txt_path filepath ext = filepath).
Proof.
  split; intros H; apply replace_go_no_occurrence; exact H.
Qed.

(** X24: for a corpus path that ends in "tagged.txt", with no earlier
    occurrence of that name or of "inflections.json", the table is written
    to the path with "inflections.json" in its place and the lexicon to the
    path with "lexicon.txt" in its place. *)
Theorem output_paths_of_tagged (base : str) :
  ~ substring (u "tagged.txt") (base ++ u "tagged.tx") ->
  ~ substring (u "inflections.json") (base ++ u "inflections.jso") ->
  to_json_path (u "inflections.json") (base ++ u "tagged.txt")
    = base ++ u "inflections.json"
  /\ to_txt_path (base ++ u "inflections.json") (u "lexicon.txt")
     = base ++ u "lexicon.txt".
Proof.
  intros H1 H2. unfold to_json_path, to_txt_path.
  pose proof (replace_first (u "tagged.txt") (u "inflections.json") base []
                ltac:(discriminate) H1) as R1.
  pose proof (replace_first (u "inflections.json") (u "lexicon.txt") base []
                ltac:(discriminate) H2) as R2.
  change (replace (u "tagged.txt") (u "inflections.json") [])
    with (@nil char) in R1.
  change (replace (u "inflections.json") (u "lexicon.txt") [])
    with (@nil char) in R2.
  rewrite !app_nil_r in R1, R2. split; assumption.
Qed.

Lemma occurs_substring (needle s : str) :
  substring needle s -> occurs needle s = true.
Proof.
  intros (a & b & ->). induction a as [|c a IH].
  - cbn [app].
    assert (E : startswith (needle ++ b) needle = true)
      by (apply startswith_prefix; now exists b).
    destruct (needle ++ b); cbn [occurs]; now rewrite E.
  - cbn [app occurs]. rewrite IH. apply orb_true_r.
Qed.

Lemma output_paths_of_tagged_witness :
  to_json_path (u "inflections.json") (u "el-" ++ u "tagged.txt")
    = u "el-" ++ u "inflections.json"
  /\ to_txt_path (u "el-" ++ u "inflections.json") (u "lexicon.txt")
     = u "el-" ++ u "lexicon.txt".
Proof.
  refine (output_paths_of_tagged (u "el-") _ _);
    intros H; apply occurs_substring in H; vm_compute in H; discriminate H.
Defined.

Example output_path_overwrites_input :
  to_json_path (u "inflections.json") (u "corpus.txt") = u "corpus.txt".
Proof. reflexivity. Qed.
